(** * ydn.db.tr.Thread: the transaction thread of ydn-db

    A shallow embedding of [src/src/ydn/db/tr/thread.js].  The thread is a
    record of its fields; its methods are computations in a small state and
    exception monad over a [World] that holds the thread, the object store of
    the JavaScript heap, the timer queue of the event loop, the transactions
    that were asked of the coordinator and the trace of the calls that leave
    the file (generator resumptions, request resolutions, native aborts).
    A resumption of the generator is an entry of the trace; what the
    coroutine then asks of the thread (a request, a commit) is a later
    operation of [op], as are the events of the engine and of the event
    loop. *)

From Stdlib Require Import Ascii.
From stdpp Require Import base numbers list strings gmap pretty.

Open Scope Z_scope.

(** ** JavaScript values *)

(** Primitive values, references into the object store and references to
    host objects.  Numbers are the integers ([q_no_] and [tx_no_] are
    counters); a generator object and a host function are opaque. *)
Inductive value : Type :=
| VUndefined
| VNull
| VBool (b : bool)
| VNumber (n : Z)
| VString (s : string)
| VObject (a : nat)
| VFunction (f : nat)
| VGenerator (g : nat).

Global Instance value_eq_dec : EqDecision value.
Proof. solve_decision. Defined.

(** ToBoolean. *)
Definition truthy (v : value) : bool :=
  match v with
  | VUndefined | VNull => false
  | VBool b => b
  | VNumber n => negb (n =? 0)
  | VString s => match s with EmptyString => false | String _ _ => true end
  | VObject _ | VFunction _ | VGenerator _ => true
  end.

(** [goog.isDef]: [val !== undefined]. *)
Definition isDef (v : value) : bool :=
  match v with VUndefined => false | _ => true end.

(** [goog.isFunction]. *)
Definition isFunction (v : value) : bool :=
  match v with VFunction _ => true | _ => false end.

(** ** Enumerations *)

(** [ydn.db.tr.Thread.Policy]. *)
Inductive Policy : Type := MULTI | REPEAT | ALL | ATOMIC | SINGLE.

(** Modelled from the spec: the enumeration [ydn.db.base.TxEventTypes] is
    declared outside src/; the continuation is invoked with COMPLETE or ABORT
    when the transaction ends, and ERROR stands for an event type that is
    neither. *)
Inductive TxEventTypes : Type := COMPLETE | ABORT | ERROR.

Global Instance TxEventTypes_eq_dec : EqDecision TxEventTypes.
Proof. solve_decision. Defined.

(** Modelled from the spec: the enumeration [ydn.db.base.TransactionMode] is
    declared outside src/; mode is one of read-only, read-write and
    schema-change. *)
Inductive TransactionMode : Type := READ_ONLY | READ_WRITE | VERSION_CHANGE.

(** [ydn.db.Request.Method], a tag that the thread never inspects. *)
Definition Method : Type := string.

(** ** Functions created in thread.js, defunctionalised by signature *)

(** [function(type, e)]: [goog.bind(this.onGenTxCommitted_, this)] returned
    by [setGenerator] when [bound], the bare method [me.onGenTxCommitted_]
    that [sendNext_] hands to [processTx] otherwise. *)
Inductive handler : Type := OnGenTxCommitted (bound : bool).

(** [function(x)]: the two functions that [request] gives to
    [addCallbacks], with the thread as their scope. *)
Inductive listener : Type := RequestCallback | RequestErrback.

(** [function()]: the function that [sendNext_] gives to [setTimeout]. *)
Inductive task : Type := Reopen (x : value).

(** [function(tx)]: the function that the task gives to [processTx], or a
    host function that a caller of [processTx] brings. *)
Inductive trfn : Type := ResumeInTx (x : value) | HostTrFn (f : nat).

(** [function(tr, error)]: [error_callback] of [ydn.db.tr.Thread.abort]. *)
Inductive sqlerrback : Type := ErrorCallback.

(** ** The object store *)

(** Modelled from the spec: the class [ydn.db.Request] is declared outside
    src/.  A pending operation has a method tag, at most one settlement (a
    failure flag and a value) and an ordered list of (onSuccess, onFailure)
    listener pairs. *)
Record Request : Type := mkRequest {
  method : Method;
  listeners : list (listener * listener);
  settlement : option (bool * value)
}.

Inductive object : Type :=
| ObjError (props : gmap string value)     (* an instance of [Error] *)
| ObjPlain (props : gmap string value)     (* any other script object *)
| ObjRequest (r : Request).

(** ** The thread *)

Record Thread : Type := mkThread {
  storage_ : value;
  q_no_ : Z;
  tx_no_ : Z;
  r_no_ : Z;
  scope_store_names : option (list string);
  scope_mode : option TransactionMode;
  policy : Policy;
  max_tx_no : Z;
  generator_ : value;
  gen_req_ : value;
  break_tx_ : bool
}.

(** The constructor [ydn.db.tr.Thread]. *)
Definition new_Thread (storage : value) (ptx_no : Z)
    (opt_policy : option Policy) (opt_store_names : option (list string))
    (opt_mode : option TransactionMode) (opt_max_tx_no : option Z) : Thread :=
  {| storage_ := storage;
     q_no_ := ptx_no;
     tx_no_ := 0;
     r_no_ := 0;
     scope_store_names := opt_store_names;
     scope_mode := opt_mode;
     policy := default SINGLE opt_policy;
     max_tx_no := default 0 opt_max_tx_no;
     generator_ := VUndefined;
     gen_req_ := VNull;
     break_tx_ := false |}.

Definition set_generator_ (v : value) (t : Thread) : Thread :=
  mkThread (storage_ t) (q_no_ t) (tx_no_ t) (r_no_ t) (scope_store_names t)
    (scope_mode t) (policy t) (max_tx_no t) v (gen_req_ t) (break_tx_ t).

Definition set_gen_req_ (v : value) (t : Thread) : Thread :=
  mkThread (storage_ t) (q_no_ t) (tx_no_ t) (r_no_ t) (scope_store_names t)
    (scope_mode t) (policy t) (max_tx_no t) (generator_ t) v (break_tx_ t).

Definition set_break_tx_ (b : bool) (t : Thread) : Thread :=
  mkThread (storage_ t) (q_no_ t) (tx_no_ t) (r_no_ t) (scope_store_names t)
    (scope_mode t) (policy t) (max_tx_no t) (generator_ t) (gen_req_ t) b.

(** ** The world *)

(** Calls that leave thread.js. *)
Inductive event : Type :=
| EvNext (g : nat) (x : value)
    (* [generator_['next'](x)] on the generator object [g] *)
| EvSetDbValue (req : nat) (v : Z) (failed : bool)
    (* [gen_req_.setDbValue(v, failed)] on the request at [req] *)
| EvProcessTx (store_names : option (list string))
    (mode : option TransactionMode) (oncompleted : option handler)
    (* [processTx(fn, store_names, mode, oncompleted)] *)
| EvCall (f : nat) (args : list value)
    (* a call of the host function [f] *)
| EvAbort (tx : value)
    (* [tx.abort()] *)
| EvExecuteSql (tx : value) (sql : string) (args : list value)
    (callback : value) (errback : sqlerrback).
    (* [tx.executeSql(sql, args, callback, errback)] *)

Record World : Type := mkWorld {
  thread : Thread;
  store : list object;
  timers : list (task * Z);        (* [setTimeout] tasks that did not run yet *)
  opening : list trfn;             (* [trFn] of the transactions being opened *)
  trace : list event
}.

Definition with_thread (f : Thread → Thread) (w : World) : World :=
  mkWorld (f (thread w)) (store w) (timers w) (opening w) (trace w).

Definition with_store (f : list object → list object) (w : World) : World :=
  mkWorld (thread w) (f (store w)) (timers w) (opening w) (trace w).

Definition with_timers (f : list (task * Z) → list (task * Z))
    (w : World) : World :=
  mkWorld (thread w) (store w) (f (timers w)) (opening w) (trace w).

Definition with_opening (f : list trfn → list trfn) (w : World) : World :=
  mkWorld (thread w) (store w) (timers w) (f (opening w)) (trace w).

Definition with_trace (f : list event → list event) (w : World) : World :=
  mkWorld (thread w) (store w) (timers w) (opening w) (f (trace w)).

(** ** The monad of method bodies *)

Inductive exn : Type :=
| AssertionError (msg : string)               (* goog.asserts.AssertionError *)
| InvalidOperationException (msg : string)    (* ydn.debug.error *)
| NotSupportedException                       (* ydn.debug.error *)
| InvalidStateError (msg : string)            (* ydn.db *)
| AlreadySettled
| TypeError.

Inductive outcome (A : Type) : Type :=
| Returned (a : A)
| Thrown (e : exn).
Arguments Returned {A} a.
Arguments Thrown {A} e.

Definition M (A : Type) : Type := World → outcome A * World.

Global Instance M_ret : MRet M := λ A a w, (Returned a, w).

Global Instance M_bind : MBind M := λ A B f m w,
  match m w with
  | (Returned a, w') => f a w'
  | (Thrown e, w') => (Thrown e, w')
  end.

Definition throw {A : Type} (e : exn) : M A := λ w, (Thrown e, w).
Definition this : M Thread := λ w, (Returned (thread w), w).
Definition heap : M (list object) := λ w, (Returned (store w), w).
Definition update (f : World → World) : M unit := λ w, (Returned (), f w).
Definition emit (e : event) : M unit := update (with_trace (λ l, l ++ [e])).

(** [setTimeout(fn, delay)]: the task runs in a later turn of the event loop. *)
Definition setTimeout (fn : task) (delay : Z) : M unit :=
  update (with_timers (λ l, l ++ [(fn, delay)])).

(** [goog.asserts.assert] with assertions enabled, the library's default. *)
Definition goog_asserts_assert (condition : bool) (msg : string) : M unit :=
  if condition then mret () else throw (AssertionError msg).

(** ** Objects of the store *)

Definition props_of (o : object) : gmap string value :=
  match o with
  | ObjError p | ObjPlain p => p
  | ObjRequest _ => ∅
  end.

(** The own properties of a request are not part of the model. *)
Definition put_prop (k : string) (v : value) (o : object) : object :=
  match o with
  | ObjError p => ObjError (<[k := v]> p)
  | ObjPlain p => ObjPlain (<[k := v]> p)
  | ObjRequest r => ObjRequest r
  end.

(** [v[k]] for a value [v] that is neither null nor undefined. *)
Definition get_prop (h : list object) (v : value) (k : string) : value :=
  match v with
  | VObject a =>
      match h !! a with
      | Some o => default VUndefined (props_of o !! k)
      | None => VUndefined
      end
  | _ => VUndefined
  end.

(** [e instanceof Error]. *)
Definition instanceof_Error (h : list object) (e : value) : bool :=
  match e with
  | VObject a => match h !! a with Some (ObjError _) => true | _ => false end
  | _ => false
  end.

(** [new C(...)]: the object gets the next free address. *)
Definition new_object (o : object) : M value := λ w,
  (Returned (VObject (length (store w))), with_store (λ h, h ++ [o]) w).

(** [new Error()]. *)
Definition new_Error : M value := new_object (ObjError ∅).

(** [target[k] = v] on an object of the store. *)
Definition set_prop (target : value) (k : string) (v : value) : M unit :=
  match target with
  | VObject a => update (with_store (alter (put_prop k v) a))
  | VUndefined | VNull => throw TypeError
  | _ => mret ()
  end.

(** [gen['next'](x)]. *)
Definition next (gen : value) (x : value) : M unit :=
  match gen with
  | VGenerator g => emit (EvNext g x)
  | _ => throw TypeError
  end.

(** ** Methods of the thread *)

Definition getTxNo (t : Thread) : Z := tx_no_ t.

Definition getQueueNo (t : Thread) : Z := q_no_ t.

Definition getStorage (t : Thread) : value := storage_ t.

(** ['B' + this.q_no_ + 'T' + this.tx_no_]; an integer is converted to its
    decimal numeral, with a minus sign when negative. *)
Definition getLabel (t : Thread) : string :=
  (("B" +:+ pretty (q_no_ t)) +:+ "T") +:+ pretty (tx_no_ t).

Definition setGenerator (gen req : value) : M handler :=
  t ← this;
  goog_asserts_assert (negb (truthy (generator_ t)))
    "thread can have only one generator";;
  update (with_thread (set_generator_ gen));;
  update (with_thread (set_gen_req_ req));;
  mret (OnGenTxCommitted true).

Definition commit : M unit :=
  t ← this;
  if negb (isDef (generator_ t)) then
    throw (InvalidOperationException
             ("Transaction thread" +:+ " not running in a generator"))
  else if truthy (generator_ t) then
    update (with_thread (set_break_tx_ true))
  else
    throw (InvalidOperationException
             ("Coroutine" +:+ " transaction thread has been ended")).

(** Modelled from the spec: [processTx] is abstract in thread.js and its
    implementations are outside src/.  It opens a new transaction and invokes
    [trFn] once it is active; [txNumber] increments each time a new
    transaction begins and [requestNumber] resets to 0 whenever a new
    transaction begins. *)
Definition processTx (trFn : trfn) (store_names : option (list string))
    (opt_mode : option TransactionMode) (opt_oncompleted : option handler)
    : M unit :=
  update (with_thread (λ t,
    mkThread (storage_ t) (q_no_ t) (tx_no_ t + 1) 0 (scope_store_names t)
      (scope_mode t) (policy t) (max_tx_no t) (generator_ t) (gen_req_ t)
      (break_tx_ t)));;
  emit (EvProcessTx store_names opt_mode opt_oncompleted);;
  update (with_opening (λ l, l ++ [trFn])).

Definition sendNext_ (x : value) : M unit :=
  t ← this;
  if break_tx_ t then
    update (with_thread (set_break_tx_ false));;
    setTimeout (Reopen x) 4
  else
    next (generator_ t) x.

Definition run_task (k : task) : M unit :=
  match k with
  | Reopen x =>
      me ← this;
      processTx (ResumeInTx x) (scope_store_names me) (scope_mode me)
        (Some (OnGenTxCommitted false))
  end.

Definition run_trfn (f : trfn) (tx : value) : M unit :=
  match f with
  | ResumeInTx x => me ← this; next (generator_ me) x
  | HostTrFn f => emit (EvCall f [tx])
  end.

Definition run_listener (l : listener) (x : value) : M unit :=
  match l with
  | RequestCallback => sendNext_ x
  | RequestErrback =>
      let e := x in
      h ← heap;
      err ← (if negb (instanceof_Error h e) then
               err ← new_Error;
               set_prop err "error" e;;
               mret err
             else mret e);
      sendNext_ err
  end.

(** [error_callback] of [ydn.db.tr.Thread.abort]: true rolls back. *)
Definition error_callback (tr error : value) : bool := true.

Definition run_sqlerrback (f : sqlerrback) (tr error : value) : bool :=
  match f with ErrorCallback => error_callback tr error end.

(** ** ydn.db.Request *)

(** Modelled from the spec: [ydn.db.Request] is outside src/.  Listeners are
    invoked once, in attachment order, only after settlement, each on the
    channel of the outcome; a listener attached after settlement runs at
    once. *)
Fixpoint fire (failed : bool) (v : value) (ls : list (listener * listener))
    : M unit :=
  match ls with
  | [] => mret ()
  | (cb, eb) :: ls' =>
      run_listener (if failed then eb else cb) v;;
      fire failed v ls'
  end.

(** Modelled from the spec: [new ydn.db.Request(method)] is a pending
    operation with its method tag, no listener and no settlement. *)
Definition new_Request (m : Method) : M value :=
  new_object (ObjRequest (mkRequest m [] None)).

(** Modelled from the spec: [req.addCallbacks(cb, eb, scope)] attaches one
    (onSuccess, onFailure) pair after the listeners already attached. *)
Definition addCallbacks (req : value) (cb eb : listener) : M unit :=
  h ← heap;
  match req with
  | VObject a =>
      match h !! a with
      | Some (ObjRequest r) =>
          update (with_store (<[a := ObjRequest
            (mkRequest (method r) (listeners r ++ [(cb, eb)]) (settlement r))]>));;
          match settlement r with
          | Some (failed, v) => fire failed v [(cb, eb)]
          | None => mret ()
          end
      | _ => throw TypeError
      end
  | _ => throw TypeError
  end.

(** Modelled from the spec: the single settlement of a pending operation;
    settling again is rejected. *)
Definition settle (req : nat) (failed : bool) (v : value) : M unit :=
  h ← heap;
  match h !! req with
  | Some (ObjRequest r) =>
      match settlement r with
      | Some _ => throw AlreadySettled
      | None =>
          update (with_store (<[req := ObjRequest
            (mkRequest (method r) (listeners r) (Some (failed, v)))]>));;
          fire failed v (listeners r)
      end
  | _ => throw TypeError
  end.

(** Modelled from the spec: [setDbValue(v, failed)] of [ydn.db.Request],
    which is outside src/, resolves the pending operation with [(v, failed)]:
    it is the single settlement of the operation, with [v] on the failure
    channel when [failed], and it is rejected when the operation is settled
    already.  The call is recorded in the trace. *)
Definition setDbValue (target : value) (v : Z) (failed : bool) : M unit :=
  h ← heap;
  match target with
  | VObject a =>
      match h !! a with
      | Some (ObjRequest r) =>
          match settlement r with
          | Some _ => throw AlreadySettled
          | None =>
              emit (EvSetDbValue a v failed);;
              settle a failed (VNumber v)
          end
      | _ => throw TypeError
      end
  | _ => throw TypeError
  end.

(** ** The completion handler *)

Definition onGenTxCommitted_ (type : TxEventTypes) (e : value) : M unit :=
  let done := bool_decide (type = COMPLETE) || bool_decide (type = ABORT) in
  t ← this;
  if done && negb (break_tx_ t) then
    let success := bool_decide (type = COMPLETE) in
    setDbValue (gen_req_ t) (getTxNo t) (negb success)
  else mret ().

(** The same function called without its receiver: [this] is not the thread,
    [this.break_tx_] and [this.gen_req_] are undefined and the method call on
    [this.gen_req_] throws. *)
Definition onGenTxCommitted_unbound (type : TxEventTypes) (e : value) : M unit :=
  let done := bool_decide (type = COMPLETE) || bool_decide (type = ABORT) in
  if done then throw TypeError else mret ().

Definition run_handler (h : handler) (type : TxEventTypes) (e : value) : M unit :=
  match h with
  | OnGenTxCommitted true => onGenTxCommitted_ type e
  | OnGenTxCommitted false => onGenTxCommitted_unbound type e
  end.

(** ** request and the static abort *)

Definition request (m : Method) (store_names : list string)
    (opt_mode : option TransactionMode) (opt_oncompleted : option handler)
    : M value :=
  req ← new_Request m;
  t ← this;
  (if truthy (generator_ t) then
     addCallbacks req RequestCallback RequestErrback
   else mret ());;
  mret req.

(** The static [ydn.db.tr.Thread.abort]. *)
Definition Thread_abort (tx : value) : M unit :=
  h ← heap;
  if truthy tx then
    if isFunction (get_prop h tx "abort") then
      emit (EvAbort tx)
    else if isFunction (get_prop h tx "executeSql") then
      emit (EvExecuteSql tx "ABORT" [] VNull ErrorCallback)
    else
      throw NotSupportedException
  else
    throw (InvalidStateError "No active transaction").

(** ** The life of a thread *)

(** What the client, the engine and the event loop do to a thread. *)
Inductive op : Type :=
| CallSetGenerator (gen req : value)
| CallCommit
| CallRequest (m : Method) (store_names : list string)
    (opt_mode : option TransactionMode) (opt_oncompleted : option handler)
| CallAbort (tx : value)
| CallProcessTx (f : nat) (store_names : option (list string))
    (opt_mode : option TransactionMode) (opt_oncompleted : option handler)
| TxEnded (h : handler) (type : TxEventTypes) (e : value)
| Settle (req : nat) (failed : bool) (v : value)
| Timer                 (* the oldest task of [setTimeout] runs *)
| TxActive (tx : value) (* the oldest transaction being opened is active *).

Definition exec_op (o : op) : M unit :=
  match o with
  | CallSetGenerator gen req => setGenerator gen req;; mret ()
  | CallCommit => commit
  | CallRequest m names mode oncompleted =>
      request m names mode oncompleted;; mret ()
  | CallAbort tx => Thread_abort tx
  | CallProcessTx f names mode oncompleted =>
      processTx (HostTrFn f) names mode oncompleted
  | TxEnded h type e => run_handler h type e
  | Settle req failed v => settle req failed v
  | Timer =>
      λ w, match timers w with
           | [] => (Returned (), w)
           | (k, _) :: rest => run_task k (with_timers (λ _, rest) w)
           end
  | TxActive tx =>
      λ w, match opening w with
           | [] => (Returned (), w)
           | f :: rest => run_trfn f tx (with_opening (λ _, rest) w)
           end
  end.

(** One turn per operation; an exception ends its turn only. *)
Definition step (o : op) (w : World) : World := snd (exec_op o w).

Definition run (os : list op) (w : World) : World := foldl (λ w o, step o w) w os.

(** A world around a thread that was just constructed. *)
Definition new_World (t : Thread) : World := mkWorld t [] [] [] [].

Definition is_processTx (e : event) : bool :=
  match e with EvProcessTx _ _ _ => true | _ => false end.

(** The number of transactions opened in a trace. *)
Definition opened (tr : list event) : Z :=
  Z.of_nat (length (List.filter is_processTx tr)).

(** ** Vocabulary of the statements *)

Definition is_request (h : list object) (a : nat) : bool :=
  match h !! a with Some (ObjRequest _) => true | _ => false end.

(** The thread drives the generator [g] for the initiating request at [a]. *)
Definition coroutine_bound (w : World) (g a : nat) : Prop :=
  generator_ (thread w) = VGenerator g
  ∧ gen_req_ (thread w) = VObject a
  ∧ is_request (store w) a = true.

(** The listeners of a request issued by a thread that drives a coroutine. *)
Definition wired : list (listener * listener) :=
  [(RequestCallback, RequestErrback)].

(** A request after its settlement. *)
Definition settled (r : Request) (failed : bool) (v : value) : Request :=
  mkRequest (method r) (listeners r) (Some (failed, v)).

(** The world once the request [r] at [a] is resolved with [(n, failed)]:
    the call is in the trace and the settlement on the request. *)
Definition resolved (a : nat) (r : Request) (n : Z) (failed : bool)
    (w : World) : World :=
  with_store (<[a := ObjRequest (settled r failed (VNumber n))]>)
    (with_trace (λ l, l ++ [EvSetDbValue a n failed]) w).

(** The two messages of [commit]. *)
Definition not_running : exn :=
  InvalidOperationException "Transaction thread not running in a generator".

Definition already_ended : exn :=
  InvalidOperationException "Coroutine transaction thread has been ended".

(** A turn that opens no transaction: of the thread only [break_tx_] may
    change. *)
Definition quiet (w w' : World) : Prop :=
  (∃ b : bool, thread w' = set_break_tx_ b (thread w))
  ∧ opened (trace w') = opened (trace w).

(** A computation is quiet when every run of it is. *)
Definition Quiet {A : Type} (m : M A) : Prop := ∀ w, quiet w (snd (m w)).

(** What every turn keeps: the identity and the scope of the thread, the
    coroutine and its request once bound, and a transaction number that
    counts the transactions opened. *)
Definition evolves (w w' : World) : Prop :=
  q_no_ (thread w') = q_no_ (thread w)
  ∧ scope_store_names (thread w') = scope_store_names (thread w)
  ∧ scope_mode (thread w') = scope_mode (thread w)
  ∧ (truthy (generator_ (thread w)) = true →
     generator_ (thread w') = generator_ (thread w)
     ∧ gen_req_ (thread w') = gen_req_ (thread w))
  ∧ tx_no_ (thread w') - tx_no_ (thread w)
    = opened (trace w') - opened (trace w).

(** ** Worlds of the examples *)

(** Queue 3 over the store orders, read-write, and the request that a
    client made for the coroutine it is about to start. *)
Definition orders_thread : Thread :=
  new_Thread VNull 3 None (Some ["orders"]) (Some READ_WRITE) None.

Definition idle_world : World :=
  mkWorld orders_thread [ObjRequest (mkRequest "run" [] None)] [] [] [].

(** The same thread once the generator 7 is bound to it. *)
Definition driven_world : World :=
  run [CallSetGenerator (VGenerator 7) (VObject 0)] idle_world.

(** The string has no letter T, the separator of the label. *)
Fixpoint no_T (s : string) : bool :=
  match s with
  | EmptyString => true
  | String c s' => negb (Ascii.eqb c "T"%char) && no_T s'
  end.

(** ** The elementary moves of a turn *)

(** Every turn of a thread is a sequence of elementary moves: the writes
    and calls that the method bodies perform, each with the condition under
    which the code reaches it. *)
Inductive atom : Type :=
| ACommit                            (* [commit] sets [break_tx_] *)
| ADefer (x : value)                 (* [sendNext_] clears it and queues a task *)
| AResume (g : nat) (x : value)      (* [generator_['next'](x)] *)
| ANewRequest (r : Request)          (* [request] makes a request *)
| AWrap (e : value)                  (* the errback makes an [Error] around [e] *)
| ASettle (a : nat) (r : Request) (failed : bool) (v : value)
| AResolve (a : nat) (n : Z) (failed : bool)   (* [gen_req_.setDbValue] *)
| ANative (e : event)                (* a call on a handle or a host function *)
| ABind (gen req : value)            (* [setGenerator] writes its two fields *)
| AOpen (f : trfn) (store_names : option (list string))
    (mode : option TransactionMode) (oncompleted : option handler)
| ATimerPop
| AOpeningPop.

Definition is_native (e : event) : bool :=
  match e with
  | EvAbort _ | EvExecuteSql _ _ _ _ _ | EvCall _ _ => true
  | _ => false
  end.

Inductive does : atom → World → World → Prop :=
| does_commit w :
    truthy (generator_ (thread w)) = true →
    does ACommit w (with_thread (set_break_tx_ true) w)
| does_defer x w :
    break_tx_ (thread w) = true →
    does (ADefer x) w
      (with_timers (λ l, l ++ [(Reopen x, 4)])
         (with_thread (set_break_tx_ false) w))
| does_resume g x w :
    generator_ (thread w) = VGenerator g →
    does (AResume g x) w (with_trace (λ l, l ++ [EvNext g x]) w)
| does_new_request r w :
    does (ANewRequest r) w (with_store (λ h, h ++ [ObjRequest r]) w)
| does_wrap e w :
    instanceof_Error (store w) e = false →
    does (AWrap e) w (with_store (λ h, h ++ [ObjError {["error" := e]}]) w)
| does_settle a r failed v w :
    store w !! a = Some (ObjRequest r) →
    settlement r = None →
    does (ASettle a r failed v) w
      (with_store (<[a := ObjRequest (settled r failed v)]>) w)
| does_resolve a failed w :
    break_tx_ (thread w) = false →
    gen_req_ (thread w) = VObject a →
    is_request (store w) a = true →
    does (AResolve a (tx_no_ (thread w)) failed) w
      (with_trace (λ l, l ++ [EvSetDbValue a (tx_no_ (thread w)) failed]) w)
| does_native e w :
    is_native e = true →
    does (ANative e) w (with_trace (λ l, l ++ [e]) w)
| does_bind gen req w :
    truthy (generator_ (thread w)) = false →
    does (ABind gen req) w
      (with_thread (set_gen_req_ req) (with_thread (set_generator_ gen) w))
| does_open f names mode oc w :
    does (AOpen f names mode oc) w (snd (processTx f names mode oc w))
| does_timer_pop k d rest w :
    timers w = (k, d) :: rest →
    does ATimerPop w (with_timers (λ _, rest) w)
| does_opening_pop f rest w :
    opening w = f :: rest →
    does AOpeningPop w (with_opening (λ _, rest) w).

Inductive path : list atom → World → World → Prop :=
| path_nil w : path [] w w
| path_cons a l w1 w2 w3 :
    does a w1 w2 → path l w2 w3 → path (a :: l) w1 w3.

(** The moves that a settlement can make. *)
Definition settling (a : atom) : bool :=
  match a with
  | ASettle _ _ _ _ | AWrap _ | ADefer _ | AResume _ _ => true
  | _ => false
  end.

(** The moves that an operation can make. *)
Definition caused_by (o : op) (a : atom) : bool :=
  match o, a with
  | CallSetGenerator _ _, ABind _ _ => true
  | CallCommit, ACommit => true
  | CallRequest _ _ _ _, ANewRequest _ => true
  | CallAbort _, ANative _ => true
  | CallProcessTx _ _ _ _, AOpen _ _ _ _ => true
  | TxEnded (OnGenTxCommitted true) _ _, AResolve _ _ _ => true
  | TxEnded (OnGenTxCommitted true) _ _, _ => settling a
  | Settle _ _ _, _ => settling a
  | Timer, (ATimerPop | AOpen _ _ _ _) => true
  | TxActive _, (AOpeningPop | AResume _ _ | ANative _) => true
  | _, _ => false
  end.

(** A computation whose every run is a path of settling moves. *)
Definition Settling {A : Type} (m : M A) : Prop :=
  ∀ w, ∃ l, path l w (snd (m w)) ∧ Forall (λ a, settling a = true) l.

(** ** Vocabulary of the further statements *)

Definition is_commit (o : op) : bool :=
  match o with CallCommit => true | _ => false end.

(** The operation is a call of the continuation that setGenerator returned. *)
Definition is_continuation (o : op) : bool :=
  match o with TxEnded (OnGenTxCommitted true) _ _ => true | _ => false end.

(** The operation enters [processTx]. *)
Definition opens_tx (o : op) : bool :=
  match o with Timer | CallProcessTx _ _ _ _ => true | _ => false end.

(** The number of transactions that callers asked through [processTx]. *)
Definition asked (os : list op) : Z :=
  Z.of_nat (length (List.filter
    (λ o, match o with CallProcessTx _ _ _ _ => true | _ => false end) os)).

Definition is_setDbValue (e : event) : bool :=
  match e with EvSetDbValue _ _ _ => true | _ => false end.

(** The number of resolutions of the initiating request in a trace. *)
Definition resolutions (tr : list event) : nat :=
  length (List.filter is_setDbValue tr).

(** The fields that the constructor marks final. *)
Definition finals (t : Thread) :
    value * Z * option (list string) * option TransactionMode * Policy * Z :=
  (storage_ t, q_no_ t, scope_store_names t, scope_mode t, policy t,
   max_tx_no t).

(** An object that is not a pending operation. *)
Definition is_plain (o : object) : bool :=
  match o with ObjRequest _ => false | _ => true end.

(** The transaction boundaries that are pending or taken: the transactions
    opened, the tasks queued and the flag that asks for one. *)
Definition boundaries (w : World) : Z :=
  opened (trace w) + Z.of_nat (length (timers w))
  + (if break_tx_ (thread w) then 1 else 0).

(** The number of calls of commit. *)
Definition commits (os : list op) : Z :=
  Z.of_nat (length (List.filter is_commit os)).

(** The string values of [ydn.db.tr.Thread.Policy]. *)
Definition Policy_name (p : Policy) : string :=
  match p with
  | MULTI => "multi"
  | REPEAT => "repeat"
  | ALL => "all"
  | ATOMIC => "atomic"
  | SINGLE => "single"
  end.

(** [a || b]. *)
Definition js_or (a b : value) : value := if truthy a then a else b.

(** An optional argument as the constructor receives it. *)
Definition opt_arg {A : Type} (f : A → value) (o : option A) : value :=
  match o with Some x => f x | None => VUndefined end.

(** * Properties *)

(** ** The diagnostic label *)

Section Label.

Lemma no_T_pretty_N_go (x : N) (s : string) :
  no_T s = true → no_T (pretty_N_go x s) = true.
Proof.
  revert s. induction (N.lt_wf_0 x) as [x _ IH]; intros s Hs.
  destruct (decide (x = 0)%N) as [->|Hx].
  - by rewrite pretty_N_go_0.
  - rewrite pretty_N_go_step by lia.
    apply IH; [apply N.div_lt; lia|].
    simpl. rewrite Hs, andb_true_r.
    unfold pretty_N_char. by repeat case_match.
Qed.

Lemma no_T_pretty_N (x : N) : no_T (pretty x) = true.
Proof.
  unfold pretty, pretty_N. case_decide; [done|].
  by apply no_T_pretty_N_go.
Qed.

Lemma no_T_pretty_Z (x : Z) : no_T (pretty x) = true.
Proof.
  unfold pretty, pretty_Z. destruct x as [|p|p]; [done| |].
  - apply no_T_pretty_N.
  - simpl. apply no_T_pretty_N.
Qed.

(** Two strings cut at their first T agree on both sides of it. *)
Lemma split_at_T (a b a' b' : string) :
  no_T a = true → no_T a' = true →
  a +:+ String "T"%char b = a' +:+ String "T"%char b' → a = a' ∧ b = b'.
Proof.
  revert a'. induction a as [|c a IH]; intros [|c' a'] Ha Ha' Heq;
    simpl in *; simplify_eq.
  - done.
  - apply andb_true_iff in Ha as [_ Ha]. apply andb_true_iff in Ha' as [_ Ha'].
    destruct (IH a' Ha Ha' H) as [-> ->]. done.
Qed.

Lemma append_assoc (a b c : string) : (a +:+ b) +:+ c = a +:+ (b +:+ c).
Proof.
  induction a as [|x a IH]; [done|].
  change (String x ((a +:+ b) +:+ c) = String x (a +:+ b +:+ c)).
  by f_equal.
Qed.

Lemma getLabel_eq (t : Thread) :
  getLabel t =
  String "B"%char (pretty (q_no_ t) +:+ String "T"%char (pretty (tx_no_ t))).
Proof. unfold getLabel. by rewrite !append_assoc. Qed.

End Label.

(** C9: the label of a thread is the letter B, the queue number, the letter
    T and the transaction number; two threads have the same label exactly
    when they have the same queue number and the same transaction number, so
    the label is a function of the two numbers and determines both. *)
Theorem getLabel_composite (t1 t2 : Thread) :
  getLabel t1 = "B" +:+ pretty (getQueueNo t1) +:+ "T" +:+ pretty (getTxNo t1)
  ∧ (getLabel t1 = getLabel t2 ↔
     getQueueNo t1 = getQueueNo t2 ∧ getTxNo t1 = getTxNo t2).
Proof.
  split; [apply getLabel_eq|].
  rewrite !getLabel_eq. unfold getQueueNo, getTxNo. split.
  - intros [= Heq].
    apply split_at_T in Heq as [Hq Ht]; auto using no_T_pretty_Z.
    split; by eapply (inj pretty).
  - by intros [-> ->].
Qed.

Lemma getLabel_composite_witness :
  let t1 := orders_thread in
  let t2 := new_Thread (VString "idb") 3 (Some ATOMIC) (Some ["users"])
              (Some READ_ONLY) (Some 5) in
  (getQueueNo t1 = getQueueNo t2 ∧ getTxNo t1 = getTxNo t2)
  ∧ getLabel t1 = getLabel t2
  ∧ getLabel t1 = "B3T0".
Proof.
  intros t1 t2.
  assert (Hn : getQueueNo t1 = getQueueNo t2 ∧ getTxNo t1 = getTxNo t2)
    by (split; reflexivity).
  split; [exact Hn|]. split.
  - exact (proj2 (proj2 (getLabel_composite t1 t2)) Hn).
  - exact (proj1 (getLabel_composite t1 t2)).
Defined.

(** ** Evaluation of the method bodies *)

Ltac eval_M :=
  unfold mbind, M_bind, mret, M_ret, throw, this, heap, update, emit,
    setTimeout, goog_asserts_assert; simpl.

Lemma set_break_tx__id (t : Thread) : set_break_tx_ (break_tx_ t) t = t.
Proof. by destruct t. Qed.

Lemma sendNext__sync (x : value) (w : World) (g : nat) :
  generator_ (thread w) = VGenerator g →
  break_tx_ (thread w) = false →
  sendNext_ x w = (Returned (), with_trace (λ l, l ++ [EvNext g x]) w).
Proof. intros Hg Hb. unfold sendNext_. eval_M. by rewrite Hb, Hg. Qed.

Lemma sendNext__deferred (x : value) (w : World) :
  break_tx_ (thread w) = true →
  sendNext_ x w =
    (Returned (),
     with_timers (λ l, l ++ [(Reopen x, 4)])
       (with_thread (set_break_tx_ false) w)).
Proof. intros Hb. unfold sendNext_. eval_M. by rewrite Hb. Qed.

Lemma setDbValue_request (w : World) (a : nat) (r : Request) (v : Z)
    (failed : bool) :
  store w !! a = Some (ObjRequest r) →
  setDbValue (VObject a) v failed w =
    match settlement r with
    | Some _ => (Thrown AlreadySettled, w)
    | None => fire failed (VNumber v) (listeners r) (resolved a r v failed w)
    end.
Proof.
  intros Ha. unfold setDbValue, settle. eval_M. rewrite Ha.
  destruct (settlement r) eqn:Hs; [done|]. by rewrite Ha, Hs.
Qed.

Lemma onGenTxCommitted__done (w : World) (a : nat) (r : Request)
    (type : TxEventTypes) (e : value) :
  type = COMPLETE ∨ type = ABORT →
  break_tx_ (thread w) = false →
  gen_req_ (thread w) = VObject a →
  store w !! a = Some (ObjRequest r) →
  onGenTxCommitted_ type e w =
    match settlement r with
    | Some _ => (Thrown AlreadySettled, w)
    | None =>
        fire (bool_decide (type = ABORT)) (VNumber (tx_no_ (thread w)))
          (listeners r)
          (resolved a r (tx_no_ (thread w)) (bool_decide (type = ABORT)) w)
    end.
Proof.
  intros Hdone Hb Hr Ha. unfold onGenTxCommitted_. eval_M. rewrite Hb, Hr.
  destruct Hdone as [-> | ->]; simpl; by rewrite (setDbValue_request w a r).
Qed.

(** ** The continuation of setGenerator *)

Lemma setGenerator_unbound (gen req : value) (w : World) :
  truthy (generator_ (thread w)) = false →
  setGenerator gen req w =
    (Returned (OnGenTxCommitted true),
     with_thread (set_gen_req_ req) (with_thread (set_generator_ gen) w)).
Proof. intros H. unfold setGenerator. eval_M. by rewrite H. Qed.

Lemma setGenerator_bound (gen req : value) (w : World) :
  truthy (generator_ (thread w)) = true →
  setGenerator gen req w =
    (Thrown (AssertionError "thread can have only one generator"), w).
Proof. intros H. unfold setGenerator. eval_M. by rewrite H. Qed.



(** ** commit *)

Lemma commit_undefined (w : World) :
  isDef (generator_ (thread w)) = false →
  commit w = (Thrown not_running, w).
Proof. intros H. unfold commit. eval_M. by rewrite H. Qed.

Lemma commit_ended (w : World) :
  isDef (generator_ (thread w)) = true →
  truthy (generator_ (thread w)) = false →
  commit w = (Thrown already_ended, w).
Proof. intros H1 H2. unfold commit. eval_M. by rewrite H1, H2. Qed.

Lemma commit_running (w : World) :
  truthy (generator_ (thread w)) = true →
  commit w = (Returned (), with_thread (set_break_tx_ true) w).
Proof.
  intros H. unfold commit. eval_M. rewrite H.
  by destruct (generator_ (thread w)).
Qed.

(** C4: commit throws the invalid-operation error of a thread that runs no
    generator when no coroutine was ever bound (generator_ is undefined, as
    the constructor leaves it); it throws another invalid-operation error,
    that of an ended coroutine, when generator_ is defined but holds no live
    coroutine (null); otherwise it returns and changes nothing but break_tx_,
    which becomes true: no transaction is opened and no task is scheduled,
    and the boundary is taken by the next sendNext_, which clears the flag
    and schedules the reopening. *)
Theorem commit_cases (w : World) :
  (generator_ (thread w) = VUndefined → commit w = (Thrown not_running, w))
  ∧ (generator_ (thread w) = VNull → commit w = (Thrown already_ended, w))
  ∧ not_running ≠ already_ended
  ∧ (truthy (generator_ (thread w)) = true →
     commit w = (Returned (), with_thread (set_break_tx_ true) w)
     ∧ ∀ x : value,
         sendNext_ x (with_thread (set_break_tx_ true) w) =
           (Returned (),
            with_timers (λ l, l ++ [(Reopen x, 4)])
              (with_thread (set_break_tx_ false) w))).
Proof.
  split; [|split; [|split]].
  - intros H. apply commit_undefined. by rewrite H.
  - intros H. apply commit_ended; by rewrite H.
  - discriminate.
  - intros H. split; [by apply commit_running|].
    intros x. by rewrite sendNext__deferred.
Qed.

Lemma commit_cases_witness :
  let w0 := idle_world in
  let w1 := run [CallSetGenerator VNull (VObject 0)] idle_world in
  let w2 := driven_world in
  (generator_ (thread w0) = VUndefined ∧ commit w0 = (Thrown not_running, w0))
  ∧ (generator_ (thread w1) = VNull ∧ commit w1 = (Thrown already_ended, w1))
  ∧ (truthy (generator_ (thread w2)) = true
     ∧ commit w2 = (Returned (), with_thread (set_break_tx_ true) w2)).
Proof.
  intros w0 w1 w2. split; [|split].
  - split; [reflexivity|].
    exact (proj1 (commit_cases w0) eq_refl).
  - split; [reflexivity|].
    exact (proj1 (proj2 (commit_cases w1)) eq_refl).
  - split; [reflexivity|].
    exact (proj1 (proj2 (proj2 (proj2 (commit_cases w2))) eq_refl)).
Defined.

(** ** The static abort *)

(** C7: ydn.db.tr.Thread.abort throws the invalid-state error when the
    handle is absent; calls the handle's own abort when that is a function;
    otherwise, when executeSql is a function, runs the statement ABORT with
    an error callback that always answers true, so that the error of the
    engine rolls the transaction back; and throws the not-supported error
    when the handle has neither. *)
Theorem Thread_abort_cases (tx : value) (w : World) :
  (truthy tx = false →
     Thread_abort tx w = (Thrown (InvalidStateError "No active transaction"), w))
  ∧ (truthy tx = true →
     isFunction (get_prop (store w) tx "abort") = true →
     Thread_abort tx w = (Returned (), with_trace (λ l, l ++ [EvAbort tx]) w))
  ∧ (truthy tx = true →
     isFunction (get_prop (store w) tx "abort") = false →
     isFunction (get_prop (store w) tx "executeSql") = true →
     Thread_abort tx w =
       (Returned (),
        with_trace (λ l, l ++ [EvExecuteSql tx "ABORT" [] VNull ErrorCallback]) w)
     ∧ ∀ tr error : value, run_sqlerrback ErrorCallback tr error = true)
  ∧ (truthy tx = true →
     isFunction (get_prop (store w) tx "abort") = false →
     isFunction (get_prop (store w) tx "executeSql") = false →
     Thread_abort tx w = (Thrown NotSupportedException, w)).
Proof.
  unfold Thread_abort. eval_M. split; [|split; [|split]].
  - by intros ->.
  - by intros -> ->.
  - by intros -> -> ->.
  - by intros -> -> ->.
Qed.

Lemma Thread_abort_cases_witness :
  let idb := ObjPlain {["abort" := VFunction 1]} in
  let sql := ObjPlain {["executeSql" := VFunction 2]} in
  let w := mkWorld orders_thread [idb; sql; ObjPlain ∅] [] [] [] in
  Thread_abort VNull w = (Thrown (InvalidStateError "No active transaction"), w)
  ∧ Thread_abort (VObject 0) w =
      (Returned (), with_trace (λ l, l ++ [EvAbort (VObject 0)]) w)
  ∧ Thread_abort (VObject 1) w =
      (Returned (),
       with_trace
         (λ l, l ++ [EvExecuteSql (VObject 1) "ABORT" [] VNull ErrorCallback]) w)
  ∧ Thread_abort (VObject 2) w = (Thrown NotSupportedException, w).
Proof.
  intros idb sql w. split; [|split; [|split]].
  - exact (proj1 (Thread_abort_cases VNull w) eq_refl).
  - exact (proj1 (proj2 (Thread_abort_cases (VObject 0) w)) eq_refl eq_refl).
  - exact (proj1 (proj1 (proj2 (proj2 (Thread_abort_cases (VObject 1) w)))
                    eq_refl eq_refl eq_refl)).
  - exact (proj2 (proj2 (proj2 (Thread_abort_cases (VObject 2) w)))
             eq_refl eq_refl eq_refl).
Defined.

(** ** Turns that open no transaction *)

Create HintDb quiet.

Section Quiet.

Lemma opened_snoc (l : list event) (e : event) :
  opened (l ++ [e]) = opened l + (if is_processTx e then 1 else 0).
Proof.
  unfold opened. rewrite List.filter_app, length_app. simpl.
  destruct (is_processTx e); simpl; lia.
Qed.

Lemma quiet_refl (w : World) : quiet w w.
Proof.
  split; [|done]. exists (break_tx_ (thread w)). by rewrite set_break_tx__id.
Qed.

Lemma quiet_frame (w w' : World) :
  thread w' = thread w → trace w' = trace w → quiet w w'.
Proof.
  intros Ht Htr. split; [|by rewrite Htr].
  exists (break_tx_ (thread w)). by rewrite set_break_tx__id.
Qed.

Lemma quiet_trans (w1 w2 w3 : World) : quiet w1 w2 → quiet w2 w3 → quiet w1 w3.
Proof.
  intros [[b1 H1] E1] [[b2 H2] E2]. split; [|congruence].
  exists b2. rewrite H2, H1. done.
Qed.

Lemma Quiet_ret {A : Type} (a : A) : Quiet (mret a).
Proof. intros w. apply quiet_refl. Qed.

Lemma Quiet_throw {A : Type} (e : exn) : Quiet (throw (A := A) e).
Proof. intros w. apply quiet_refl. Qed.

Lemma Quiet_bind {A B : Type} (m : M A) (f : A → M B) :
  Quiet m → (∀ a, Quiet (f a)) → Quiet (m ≫= f).
Proof.
  intros Hm Hf w. unfold mbind, M_bind. specialize (Hm w).
  destruct (m w) as [[a|e] w']; simpl in *; [|done].
  eapply quiet_trans; [exact Hm|apply Hf].
Qed.

Lemma Quiet_this : Quiet this.
Proof. intros w. apply quiet_refl. Qed.

Lemma Quiet_heap : Quiet heap.
Proof. intros w. apply quiet_refl. Qed.

Lemma Quiet_store (f : list object → list object) : Quiet (update (with_store f)).
Proof. intros w. by apply quiet_frame. Qed.

Lemma Quiet_timers (f : list (task * Z) → list (task * Z)) :
  Quiet (update (with_timers f)).
Proof. intros w. by apply quiet_frame. Qed.

Lemma Quiet_break (b : bool) : Quiet (update (with_thread (set_break_tx_ b))).
Proof. intros w. split; [by exists b|done]. Qed.

Lemma Quiet_emit (e : event) : is_processTx e = false → Quiet (emit e).
Proof.
  intros He w. split; simpl.
  - exists (break_tx_ (thread w)). by rewrite set_break_tx__id.
  - rewrite opened_snoc, He. lia.
Qed.

Hint Resolve Quiet_ret Quiet_throw Quiet_this Quiet_heap Quiet_store
  Quiet_timers Quiet_break Quiet_emit : quiet.

Lemma Quiet_next (gen x : value) : Quiet (next gen x).
Proof. destruct gen; simpl; auto with quiet. Qed.

Lemma Quiet_new_object (o : object) : Quiet (new_object o).
Proof. intros w. by apply quiet_frame. Qed.

Lemma Quiet_set_prop (target : value) (k : string) (v : value) :
  Quiet (set_prop target k v).
Proof. destruct target; simpl; auto with quiet. Qed.

Lemma Quiet_sendNext_ (x : value) : Quiet (sendNext_ x).
Proof.
  unfold sendNext_. apply Quiet_bind; [auto with quiet|]. intros t.
  destruct (break_tx_ t); [|apply Quiet_next].
  apply Quiet_bind; [auto with quiet|]. intros _.
  unfold setTimeout. auto with quiet.
Qed.

Lemma Quiet_run_listener (l : listener) (x : value) : Quiet (run_listener l x).
Proof.
  destruct l; simpl; [apply Quiet_sendNext_|].
  apply Quiet_bind; [auto with quiet|]. intros h.
  apply Quiet_bind; [|intros ?; apply Quiet_sendNext_].
  destruct (negb (instanceof_Error h x)); [|auto with quiet].
  apply Quiet_bind; [apply Quiet_new_object|]. intros err.
  apply Quiet_bind; [apply Quiet_set_prop|]. auto with quiet.
Qed.

Lemma Quiet_fire (failed : bool) (v : value) (ls : list (listener * listener)) :
  Quiet (fire failed v ls).
Proof.
  induction ls as [|[cb eb] ls IH]; simpl; [auto with quiet|].
  apply Quiet_bind; [apply Quiet_run_listener|]. intros _. exact IH.
Qed.

Lemma Quiet_addCallbacks (req : value) (cb eb : listener) :
  Quiet (addCallbacks req cb eb).
Proof.
  unfold addCallbacks. apply Quiet_bind; [auto with quiet|]. intros h.
  destruct req; auto with quiet.
  destruct (h !! a) as [[| |r]|]; auto with quiet.
  apply Quiet_bind; [auto with quiet|]. intros _.
  destruct (settlement r) as [[failed v]|]; [apply Quiet_fire|auto with quiet].
Qed.

Lemma Quiet_settle (req : nat) (failed : bool) (v : value) :
  Quiet (settle req failed v).
Proof.
  unfold settle. apply Quiet_bind; [auto with quiet|]. intros h.
  destruct (h !! req) as [[| |r]|]; auto with quiet.
  destruct (settlement r); auto with quiet.
  apply Quiet_bind; [auto with quiet|]. intros _. apply Quiet_fire.
Qed.

Lemma Quiet_setDbValue (target : value) (v : Z) (failed : bool) :
  Quiet (setDbValue target v failed).
Proof.
  unfold setDbValue. apply Quiet_bind; [auto with quiet|]. intros h.
  destruct target; auto with quiet.
  destruct (h !! a) as [[| |r]|]; auto with quiet.
  destruct (settlement r); auto with quiet.
  apply Quiet_bind; [auto with quiet|]. intros _. apply Quiet_settle.
Qed.

Lemma Quiet_request (m : Method) (names : list string)
    (mode : option TransactionMode) (oc : option handler) :
  Quiet (request m names mode oc).
Proof.
  unfold request. apply Quiet_bind; [apply Quiet_new_object|]. intros req.
  apply Quiet_bind; [auto with quiet|]. intros t.
  apply Quiet_bind; [|auto with quiet].
  destruct (truthy (generator_ t)); [apply Quiet_addCallbacks|auto with quiet].
Qed.

Lemma Quiet_commit : Quiet commit.
Proof.
  unfold commit. apply Quiet_bind; [auto with quiet|]. intros t.
  destruct (negb (isDef (generator_ t))); [auto with quiet|].
  destruct (truthy (generator_ t)); auto with quiet.
Qed.

Lemma Quiet_run_handler (h : handler) (type : TxEventTypes) (e : value) :
  Quiet (run_handler h type e).
Proof.
  destruct h as [[|]]; simpl.
  - unfold onGenTxCommitted_. apply Quiet_bind; [auto with quiet|]. intros t.
    destruct (_ && _); [apply Quiet_setDbValue|auto with quiet].
  - unfold onGenTxCommitted_unbound. destruct (_ || _); auto with quiet.
Qed.

Lemma Quiet_Thread_abort (tx : value) : Quiet (Thread_abort tx).
Proof.
  unfold Thread_abort. apply Quiet_bind; [auto with quiet|]. intros h.
  destruct (truthy tx); [|auto with quiet].
  destruct (isFunction (get_prop h tx "abort")); [auto with quiet|].
  destruct (isFunction (get_prop h tx "executeSql")); auto with quiet.
Qed.

Lemma Quiet_run_trfn (f : trfn) (tx : value) : Quiet (run_trfn f tx).
Proof.
  destruct f as [x|f]; simpl; [|auto with quiet].
  apply Quiet_bind; [auto with quiet|]. intros me. apply Quiet_next.
Qed.

End Quiet.

(** ** The turns of a thread *)

Section Turns.

Lemma run_task_Reopen (x : value) (w : World) :
  run_task (Reopen x) w =
    (Returned (),
     mkWorld
       (mkThread (storage_ (thread w)) (q_no_ (thread w))
          (tx_no_ (thread w) + 1) 0 (scope_store_names (thread w))
          (scope_mode (thread w)) (policy (thread w)) (max_tx_no (thread w))
          (generator_ (thread w)) (gen_req_ (thread w)) (break_tx_ (thread w)))
       (store w) (timers w) (opening w ++ [ResumeInTx x])
       (trace w ++ [EvProcessTx (scope_store_names (thread w))
                      (scope_mode (thread w))
                      (Some (OnGenTxCommitted false))])).
Proof. done. Qed.

Lemma processTx_opens (f : trfn) (names : option (list string))
    (mode : option TransactionMode) (oc : option handler) (w : World) :
  processTx f names mode oc w =
    (Returned (),
     mkWorld
       (mkThread (storage_ (thread w)) (q_no_ (thread w))
          (tx_no_ (thread w) + 1) 0 (scope_store_names (thread w))
          (scope_mode (thread w)) (policy (thread w)) (max_tx_no (thread w))
          (generator_ (thread w)) (gen_req_ (thread w)) (break_tx_ (thread w)))
       (store w) (timers w) (opening w ++ [f])
       (trace w ++ [EvProcessTx names mode oc])).
Proof. done. Qed.

(** Every operation but the timer and setGenerator is quiet. *)
Lemma step_quiet (o : op) (w : World) :
  match o with
  | Timer | CallSetGenerator _ _ | CallProcessTx _ _ _ _ => True
  | _ => quiet w (step o w)
  end.
Proof.
  unfold step. destruct o; simpl; try done.
  - apply Quiet_commit.
  - apply (Quiet_bind _ _ (Quiet_request m store_names opt_mode opt_oncompleted)).
    intros ?. apply Quiet_ret.
  - apply Quiet_Thread_abort.
  - apply Quiet_run_handler.
  - apply Quiet_settle.
  - destruct (opening w) as [|f rest] eqn:Ho; [apply quiet_refl|].
    eapply quiet_trans; [|apply Quiet_run_trfn]. by apply quiet_frame.
Qed.

Lemma step_setGenerator (gen req : value) (w : World) :
  step (CallSetGenerator gen req) w =
    if truthy (generator_ (thread w)) then w
    else with_thread (set_gen_req_ req) (with_thread (set_generator_ gen) w).
Proof.
  unfold step. simpl. unfold mbind at 1, M_bind.
  destruct (truthy (generator_ (thread w))) eqn:Hg.
  - by rewrite setGenerator_bound.
  - by rewrite setGenerator_unbound.
Qed.

Lemma step_Timer (w : World) :
  step Timer w =
    match timers w with
    | [] => w
    | (k, _) :: rest => snd (run_task k (with_timers (λ _, rest) w))
    end.
Proof. unfold step. simpl. by destruct (timers w) as [|[k d] rest]. Qed.

(** Counters and trace across one turn. *)
Lemma step_counters (o : op) (w : World) :
  (opened (trace (step o w)) = opened (trace w) + 1
   ∧ tx_no_ (thread (step o w)) = tx_no_ (thread w) + 1
   ∧ r_no_ (thread (step o w)) = 0)
  ∨ (opened (trace (step o w)) = opened (trace w)
     ∧ tx_no_ (thread (step o w)) = tx_no_ (thread w)
     ∧ r_no_ (thread (step o w)) = r_no_ (thread w)).
Proof.
  assert (Hq : ∀ w', quiet w w' →
    opened (trace w') = opened (trace w)
    ∧ tx_no_ (thread w') = tx_no_ (thread w)
    ∧ r_no_ (thread w') = r_no_ (thread w)).
  { intros w' [[b ->] ->]. done. }
  pose proof (step_quiet o w) as Hs.
  destruct o; try (right; by apply Hq).
  - right. rewrite step_setGenerator.
    by destruct (truthy (generator_ (thread w))).
  - left. unfold step, exec_op. rewrite processTx_opens. simpl.
    by rewrite opened_snoc.
  - rewrite step_Timer. destruct (timers w) as [|[[x] d] rest]; [by right|].
    left. rewrite run_task_Reopen. simpl.
    rewrite opened_snoc. done.
Qed.

Lemma quiet_evolves (w w' : World) : quiet w w' → evolves w w'.
Proof.
  intros [[b Hb] Ho]. unfold evolves. rewrite Hb, Ho. simpl.
  repeat split; lia.
Qed.

Lemma evolves_refl (w : World) : evolves w w.
Proof. unfold evolves. repeat split; lia. Qed.

Lemma evolves_trans (w1 w2 w3 : World) :
  evolves w1 w2 → evolves w2 w3 → evolves w1 w3.
Proof.
  intros (Hq & Hn & Hm & Hg & Hc) (Hq' & Hn' & Hm' & Hg' & Hc').
  unfold evolves. rewrite Hq', Hn', Hm'.
  refine (conj Hq (conj Hn (conj Hm (conj _ _)))); [|lia].
  intros Ht. destruct (Hg Ht) as [E1 E2].
  destruct Hg' as [E1' E2']; [by rewrite E1|]. split; congruence.
Qed.

Lemma step_evolves (o : op) (w : World) : evolves w (step o w).
Proof.
  pose proof (step_quiet o w) as Hs.
  destruct o; try by apply quiet_evolves.
  - rewrite step_setGenerator.
    destruct (truthy (generator_ (thread w))) eqn:Hg; [apply evolves_refl|].
    unfold evolves. simpl. rewrite Hg. repeat split; try done; lia.
  - unfold step, exec_op. rewrite processTx_opens. unfold evolves. simpl.
    rewrite opened_snoc. simpl. repeat split; try done; lia.
  - rewrite step_Timer. destruct (timers w) as [|[[x] d] rest];
      [apply evolves_refl|].
    rewrite run_task_Reopen. unfold evolves. simpl. rewrite opened_snoc. simpl.
    repeat split; try done; lia.
Qed.

Lemma run_snoc (os : list op) (o : op) (w : World) :
  run (os ++ [o]) w = step o (run os w).
Proof. unfold run. by rewrite foldl_app. Qed.

Lemma run_evolves (os : list op) (w : World) : evolves w (run os w).
Proof.
  induction os as [|o os IH] using rev_ind; [apply evolves_refl|].
  rewrite run_snoc. eapply evolves_trans; [exact IH|apply step_evolves].
Qed.

End Turns.

(** ** The resume step *)

(** C2: for every value given to sendNext_ on a thread that drives a
    coroutine: when break_tx_ is false the coroutine is resumed with the
    value in the same turn and break_tx_ stays false; when break_tx_ is true
    the flag is cleared, the coroutine is not resumed in this turn, and a
    task is queued by setTimeout; whenever that task runs it calls processTx
    with the store names and the mode of the thread's scope, and once that
    transaction is active the coroutine is resumed with the original value. *)
Theorem sendNext__cases (x : value) (w : World) (g : nat) :
  generator_ (thread w) = VGenerator g →
  (break_tx_ (thread w) = false →
     sendNext_ x w = (Returned (), with_trace (λ l, l ++ [EvNext g x]) w)
     ∧ break_tx_ (thread (snd (sendNext_ x w))) = false)
  ∧ (break_tx_ (thread w) = true →
     let w1 := snd (sendNext_ x w) in
     sendNext_ x w =
       (Returned (),
        with_timers (λ l, l ++ [(Reopen x, 4)])
          (with_thread (set_break_tx_ false) w))
     ∧ break_tx_ (thread w1) = false
     ∧ trace w1 = trace w
     ∧ opening w1 = opening w
     ∧ ∀ os : list op,
         let v := run os w1 in
         let v1 := snd (run_task (Reopen x) v) in
         fst (run_task (Reopen x) v) = Returned ()
         ∧ trace v1 = trace v ++ [EvProcessTx (scope_store_names (thread w))
                                    (scope_mode (thread w))
                                    (Some (OnGenTxCommitted false))]
         ∧ opening v1 = opening v ++ [ResumeInTx x]
         ∧ ∀ (os' : list op) (tx : value),
             let u := run os' v1 in
             run_trfn (ResumeInTx x) tx u =
               (Returned (), with_trace (λ l, l ++ [EvNext g x]) u)).
Proof.
  intros Hg. split.
  - intros Hb. rewrite (sendNext__sync x w g Hg Hb). done.
  - intros Hb. rewrite (sendNext__deferred x w Hb). cbv zeta.
    do 4 (split; [done|]). intros os.
    remember (snd (Returned (), with_timers (λ l, l ++ [(Reopen x, 4)])
                     (with_thread (set_break_tx_ false) w))) as w1 eqn:Hw1.
    remember (run os w1) as v eqn:Hv.
    rewrite run_task_Reopen.
    destruct (run_evolves os w1) as (_ & Hn & Hm & Hgen & _).
    rewrite <-Hv in Hn, Hm, Hgen.
    assert (Ht1 : thread w1 = set_break_tx_ false (thread w)) by by rewrite Hw1.
    assert (Hgv : generator_ (thread v) = VGenerator g).
    { destruct Hgen as [E _]; [|rewrite E]; rewrite Ht1; simpl; by rewrite Hg. }
    split; [done|]. split; [|split; [done|]].
    { simpl. by rewrite Hn, Hm, Ht1. }
    intros os' tx.
    remember (snd (Returned (), _)) as v1 eqn:Hv1 in |- *.
    assert (Hg1 : generator_ (thread v1) = VGenerator g) by by rewrite Hv1.
    destruct (run_evolves os' v1) as (_ & _ & _ & Hgen' & _).
    assert (Hgu : generator_ (thread (run os' v1)) = VGenerator g).
    { destruct Hgen' as [E _]; [|rewrite E]; by rewrite Hg1. }
    unfold run_trfn, mbind, M_bind, this. by rewrite Hgu.
Qed.

Lemma sendNext__cases_witness :
  let w := driven_world in
  let wb := run [CallCommit] driven_world in
  (generator_ (thread w) = VGenerator 7 ∧ break_tx_ (thread w) = false
   ∧ sendNext_ (VNumber 5) w =
       (Returned (), with_trace (λ l, l ++ [EvNext 7 (VNumber 5)]) w))
  ∧ (generator_ (thread wb) = VGenerator 7 ∧ break_tx_ (thread wb) = true
     ∧ sendNext_ (VNumber 5) wb =
         (Returned (),
          with_timers (λ l, l ++ [(Reopen (VNumber 5), 4)])
            (with_thread (set_break_tx_ false) wb))).
Proof.
  intros w wb. split.
  - split; [reflexivity|]. split; [reflexivity|].
    exact (proj1 (proj1 (sendNext__cases (VNumber 5) w 7 eq_refl) eq_refl)).
  - split; [reflexivity|]. split; [reflexivity|].
    exact (proj1 (proj2 (sendNext__cases (VNumber 5) wb 7 eq_refl) eq_refl)).
Defined.

(** The scenario of a commit between two operations, turn by turn: the
    request settles, the task waits, the first transaction completes, the
    task opens the second transaction and the coroutine resumes in it. *)
Example commit_scenario :
  let w' := run [CallSetGenerator (VGenerator 7) (VObject 0);
                 CallRequest "get" ["orders"] None None;
                 CallCommit;
                 Settle 1 false (VNumber 5);
                 Timer;
                 TxActive VNull] idle_world in
  trace w' = [EvProcessTx (Some ["orders"]) (Some READ_WRITE)
                (Some (OnGenTxCommitted false));
              EvNext 7 (VNumber 5)]
  ∧ tx_no_ (thread w') = 1 ∧ r_no_ (thread w') = 0
  ∧ break_tx_ (thread w') = false ∧ timers w' = [] ∧ opening w' = [].
Proof. by vm_compute. Qed.

(** ** The counters *)

(** C3: the task of the continuation opens one transaction, adds exactly 1
    to tx_no_ and sets r_no_ to 0; in every turn of the life of a thread
    either one transaction is opened, tx_no_ grows by 1 and r_no_ becomes 0,
    or none is opened and both counters keep their values; so after any
    sequence of turns tx_no_ has grown by the number of transactions that
    were opened, and on a new thread it equals that number. *)
Theorem counters_follow_transactions :
  (∀ (x : value) (v : World),
     let v1 := snd (run_task (Reopen x) v) in
     opened (trace v1) = opened (trace v) + 1
     ∧ tx_no_ (thread v1) = tx_no_ (thread v) + 1
     ∧ r_no_ (thread v1) = 0)
  ∧ (∀ (o : op) (w : World),
       (opened (trace (step o w)) = opened (trace w) + 1
        ∧ tx_no_ (thread (step o w)) = tx_no_ (thread w) + 1
        ∧ r_no_ (thread (step o w)) = 0)
       ∨ (opened (trace (step o w)) = opened (trace w)
          ∧ tx_no_ (thread (step o w)) = tx_no_ (thread w)
          ∧ r_no_ (thread (step o w)) = r_no_ (thread w)))
  ∧ (∀ (os : list op) (w : World),
       tx_no_ (thread (run os w)) =
         tx_no_ (thread w) + (opened (trace (run os w)) - opened (trace w)))
  ∧ (∀ (os : list op) (storage : value) (ptx_no : Z) (pol : option Policy)
       (names : option (list string)) (mode : option TransactionMode)
       (mx : option Z),
       let w := new_World (new_Thread storage ptx_no pol names mode mx) in
       tx_no_ (thread (run os w)) = opened (trace (run os w))).
Proof.
  split; [|split; [|split]].
  - intros x v. rewrite run_task_Reopen. simpl. by rewrite opened_snoc.
  - apply step_counters.
  - intros os w. destruct (run_evolves os w) as (_ & _ & _ & _ & Hc). lia.
  - intros os storage ptx_no pol names mode mx w.
    destruct (run_evolves os w) as (_ & _ & _ & _ & Hc).
    simpl in Hc. unfold opened in Hc at 2. simpl in Hc. lia.
Qed.

(** ** One coroutine per thread *)

(** C6: once a coroutine is bound to a thread, setGenerator fails with the
    assertion that a thread can have only one generator and changes nothing;
    whatever happens to the thread afterwards the bound coroutine stays the
    same and setGenerator keeps failing, so a thread binds at most one
    coroutine in its life. *)
Theorem setGenerator_once (w : World) (gen req : value) (os : list op) :
  truthy (generator_ (thread w)) = true →
  setGenerator gen req w =
    (Thrown (AssertionError "thread can have only one generator"), w)
  ∧ generator_ (thread (run os w)) = generator_ (thread w)
  ∧ setGenerator gen req (run os w) =
      (Thrown (AssertionError "thread can have only one generator"), run os w).
Proof.
  intros Hg. split; [by apply setGenerator_bound|].
  destruct (run_evolves os w) as (_ & _ & _ & Hgen & _).
  destruct (Hgen Hg) as [E _]. split; [done|].
  apply setGenerator_bound. by rewrite E.
Qed.

Lemma setGenerator_once_witness :
  let w := driven_world in
  let os := [CallRequest "get" ["orders"] None None; CallCommit;
             Settle 1 false (VNumber 5); Timer; TxActive VNull] in
  truthy (generator_ (thread w)) = true
  ∧ setGenerator (VGenerator 8) (VObject 0) w =
      (Thrown (AssertionError "thread can have only one generator"), w)
  ∧ generator_ (thread (run os w)) = VGenerator 7.
Proof.
  intros w os.
  pose proof (setGenerator_once w (VGenerator 8) (VObject 0) os eq_refl) as H.
  split; [reflexivity|]. split.
  - exact (proj1 H).
  - exact (proj1 (proj2 H)).
Defined.

(** ** Requests and their settlement *)

Section Settlement.

Lemma bind_ret_unit (m : M unit) (w : World) : (m;; mret ()) w = m w.
Proof. unfold mbind, M_bind, mret, M_ret. by destruct (m w) as [[[]|e] w']. Qed.

Lemma fire_wired (failed : bool) (v : value) (w : World) :
  fire failed v wired w =
    run_listener (if failed then RequestErrback else RequestCallback) v w.
Proof. unfold wired, fire. apply bind_ret_unit. Qed.

Lemma settle_unsettled (a : nat) (r : Request) (failed : bool) (v : value)
    (w : World) :
  store w !! a = Some (ObjRequest r) →
  settlement r = None →
  settle a failed v w =
    fire failed v (listeners r)
      (with_store (<[a := ObjRequest (settled r failed v)]>) w).
Proof. intros Ha Hs. unfold settle. eval_M. by rewrite Ha, Hs. Qed.

Lemma instanceof_Error_settled (h : list object) (a : nat) (r r' : Request)
    (e : value) :
  h !! a = Some (ObjRequest r) →
  instanceof_Error (<[a := ObjRequest r']> h) e = instanceof_Error h e.
Proof.
  intros Ha. destruct e as [| | | | |b| |]; simpl; try done.
  destruct (decide (a = b)) as [->|Hne].
  - rewrite list_lookup_insert_eq by (by eapply lookup_lt_Some).
    by rewrite Ha.
  - by rewrite list_lookup_insert_ne.
Qed.

Lemma errback_wraps (e : value) (w : World) :
  instanceof_Error (store w) e = false →
  run_listener RequestErrback e w =
    sendNext_ (VObject (length (store w)))
      (with_store (λ h, h ++ [ObjError {["error" := e]}]) w).
Proof.
  intros He. simpl. eval_M. rewrite He. simpl. f_equal.
  unfold with_store. simpl. f_equal.
  rewrite alter_app_r_alt by done. rewrite Nat.sub_diag. simpl.
  by rewrite insert_empty.
Qed.

Lemma errback_passes (e : value) (w : World) :
  instanceof_Error (store w) e = true →
  run_listener RequestErrback e w = sendNext_ e w.
Proof. intros He. simpl. eval_M. by rewrite He. Qed.

Lemma request_new (m : Method) (names : list string)
    (mode : option TransactionMode) (oc : option handler) (w : World) :
  request m names mode oc w =
    (Returned (VObject (length (store w))),
     with_store (λ h, h ++ [ObjRequest
       (mkRequest m (if truthy (generator_ (thread w)) then wired else [])
          None)]) w).
Proof.
  unfold request, new_Request, new_object, addCallbacks. eval_M.
  destruct (truthy (generator_ (thread w))); [|done].
  unfold with_store at 1 4. cbn [store].
  rewrite list_lookup_middle by done. simpl. f_equal.
  unfold with_store. simpl. f_equal.
  rewrite insert_app_r_alt by done. by rewrite Nat.sub_diag.
Qed.

End Settlement.

(** C5: on a thread that drives a coroutine, when a request it issued fails
    with a reason that is not an instance of Error (a plain string, say), the
    errback makes a new Error object, stores the reason under its property
    error, and gives that object to sendNext_: the coroutine is resumed with
    it, in this turn when break_tx_ is false and in the reopened transaction
    otherwise, and the reason is read back from the property error. *)
Theorem failure_reason_wrapped (w : World) (a g : nat) (r : Request)
    (reason : value) :
  generator_ (thread w) = VGenerator g →
  store w !! a = Some (ObjRequest r) →
  settlement r = None →
  listeners r = wired →
  instanceof_Error (store w) reason = false →
  let err := VObject (length (store w)) in
  let w1 := with_store (λ h, <[a := ObjRequest (settled r true reason)]> h
                             ++ [ObjError {["error" := reason]}]) w in
  settle a true reason w = sendNext_ err w1
  ∧ store w !! length (store w) = None
  ∧ instanceof_Error (store w1) err = true
  ∧ get_prop (store w1) err "error" = reason
  ∧ (break_tx_ (thread w) = false →
     settle a true reason w =
       (Returned (), with_trace (λ l, l ++ [EvNext g err]) w1))
  ∧ (break_tx_ (thread w) = true →
     settle a true reason w =
       (Returned (),
        with_timers (λ l, l ++ [(Reopen err, 4)])
          (with_thread (set_break_tx_ false) w1))).
Proof.
  intros Hg Ha Hs Hl He err w1.
  assert (Hsettle : settle a true reason w = sendNext_ err w1).
  { rewrite (settle_unsettled a r) by done. rewrite Hl, fire_wired.
    rewrite errback_wraps.
    - simpl. by rewrite length_insert.
    - simpl. by rewrite (instanceof_Error_settled _ _ r). }
  assert (Hlook : store w1 !! length (store w)
                  = Some (ObjError {["error" := reason]})).
  { simpl. apply list_lookup_middle. by rewrite length_insert. }
  split; [done|]. split; [by apply lookup_ge_None|].
  split; [|split; [|split]].
  - unfold err. simpl in *. by rewrite Hlook.
  - unfold err. simpl in *. rewrite Hlook. simpl.
    by rewrite lookup_singleton_eq.
  - intros Hb. rewrite Hsettle. by apply sendNext__sync.
  - intros Hb. rewrite Hsettle. by apply sendNext__deferred.
Qed.

Lemma failure_reason_wrapped_witness :
  let w := run [CallRequest "put" ["orders"] (Some READ_WRITE) None]
             driven_world in
  let r := mkRequest "put" wired None in
  let w1 := with_store (λ _, [ObjRequest (mkRequest "run" [] None);
                              ObjRequest (settled r true (VString "disk full"));
                              ObjError {["error" := VString "disk full"]}]) w in
  store w !! 1%nat = Some (ObjRequest r)
  ∧ settle 1 true (VString "disk full") w =
      (Returned (), with_trace (λ l, l ++ [EvNext 7 (VObject 2)]) w1)
  ∧ get_prop (store w1) (VObject 2) "error" = VString "disk full".
Proof.
  intros w r w1.
  pose proof (failure_reason_wrapped w 1 7 r (VString "disk full")
                eq_refl eq_refl eq_refl eq_refl eq_refl) as H.
  split; [reflexivity|]. split.
  - exact (proj1 (proj2 (proj2 (proj2 (proj2 H)))) eq_refl).
  - exact (proj1 (proj2 (proj2 (proj2 H)))).
Defined.

(** C10: on a thread that drives a coroutine, when a request it issued fails
    with a reason that is an instance of Error, the errback gives that very
    object to sendNext_: no object is made, the error object is not written,
    and the coroutine is resumed with the reference it was failed with. *)
Theorem structured_error_passed (w : World) (a g b : nat) (r : Request)
    (p : gmap string value) :
  generator_ (thread w) = VGenerator g →
  store w !! a = Some (ObjRequest r) →
  settlement r = None →
  listeners r = wired →
  store w !! b = Some (ObjError p) →
  let e := VObject b in
  let w1 := with_store (<[a := ObjRequest (settled r true e)]>) w in
  settle a true e w = sendNext_ e w1
  ∧ length (store w1) = length (store w)
  ∧ store w1 !! b = Some (ObjError p)
  ∧ (break_tx_ (thread w) = false →
     settle a true e w = (Returned (), with_trace (λ l, l ++ [EvNext g e]) w1))
  ∧ (break_tx_ (thread w) = true →
     settle a true e w =
       (Returned (),
        with_timers (λ l, l ++ [(Reopen e, 4)])
          (with_thread (set_break_tx_ false) w1))).
Proof.
  intros Hg Ha Hs Hl Hb e w1.
  assert (Hne : a ≠ b) by (intros ->; congruence).
  assert (Hsettle : settle a true e w = sendNext_ e w1).
  { rewrite (settle_unsettled a r) by done. rewrite Hl, fire_wired.
    apply errback_passes. unfold w1. cbn [store with_store].
    rewrite (instanceof_Error_settled _ _ r) by done. simpl. by rewrite Hb. }
  split; [done|]. split; [by simpl; rewrite length_insert|].
  split; [by simpl; rewrite list_lookup_insert_ne|]. split.
  - intros Hbr. rewrite Hsettle. by apply sendNext__sync.
  - intros Hbr. rewrite Hsettle. by apply sendNext__deferred.
Qed.

Lemma structured_error_passed_witness :
  let quota := ObjError {["name" := VString "QuotaExceededError"]} in
  let w := run [CallRequest "put" ["orders"] (Some READ_WRITE) None]
             (with_store (λ h, h ++ [quota]) driven_world) in
  let r := mkRequest "put" wired None in
  let w1 := with_store (<[2%nat := ObjRequest (settled r true (VObject 1))]>) w in
  (store w !! 2%nat = Some (ObjRequest r) ∧ store w !! 1%nat = Some quota)
  ∧ settle 2 true (VObject 1) w =
      (Returned (), with_trace (λ l, l ++ [EvNext 7 (VObject 1)]) w1)
  ∧ store w1 !! 1%nat = Some quota.
Proof.
  intros quota w r w1.
  pose proof (structured_error_passed w 2 7 1 r
                {["name" := VString "QuotaExceededError"]}
                eq_refl eq_refl eq_refl eq_refl eq_refl) as H.
  split; [split; reflexivity|]. split.
  - exact (proj1 (proj2 (proj2 (proj2 H))) eq_refl).
  - exact (proj1 (proj2 (proj2 H))).
Defined.

(** C8: request returns at once, with the reference of a request that was
    not in the store before, unsettled and tagged with the given method; the
    thread, the timers and the trace are as they were.  When a coroutine is
    bound the request carries the success listener that gives the value of
    the settlement to sendNext_: whatever happens in between, the success of
    the still pending request resumes the generator with that very value, in
    the same turn when break_tx_ is false and through the queued task when it
    is true.  When no coroutine is bound the request has no listener, and
    settling it, on either channel, resumes nothing and changes nothing but
    the request itself. *)
Theorem request_returns_pending (m : Method) (names : list string)
    (mode : option TransactionMode) (oc : option handler) (w : World) :
  let a := length (store w) in
  let bound := truthy (generator_ (thread w)) in
  let r := mkRequest m (if bound then wired else []) None in
  request m names mode oc w =
    (Returned (VObject a), with_store (λ h, h ++ [ObjRequest r]) w)
  ∧ store w !! a = None
  ∧ method r = m
  ∧ (∀ (v : World) (x : value),
      store v !! a = Some (ObjRequest r) →
      (bound = true →
         settle a false x v =
           sendNext_ x (with_store (<[a := ObjRequest (settled r false x)]>) v))
      ∧ (bound = false →
         ∀ failed : bool,
           settle a failed x v =
             (Returned (),
              with_store (<[a := ObjRequest (settled r failed x)]>) v)))
  ∧ ∀ (g : nat) (os : list op) (x : value),
      generator_ (thread w) = VGenerator g →
      let v := run os (snd (request m names mode oc w)) in
      let v' := with_store (<[a := ObjRequest (settled r false x)]>) v in
      store v !! a = Some (ObjRequest r) →
      (break_tx_ (thread v) = false →
         settle a false x v =
           (Returned (), with_trace (λ l, l ++ [EvNext g x]) v'))
      ∧ (break_tx_ (thread v) = true →
         settle a false x v =
           (Returned (),
            with_timers (λ l, l ++ [(Reopen x, 4)])
              (with_thread (set_break_tx_ false) v'))).
Proof.
  intros a bound r. split; [apply request_new|].
  split; [by apply lookup_ge_None|]. split; [done|].
  assert (Hwired : ∀ v x, store v !! a = Some (ObjRequest r) → bound = true →
            settle a false x v =
              sendNext_ x
                (with_store (<[a := ObjRequest (settled r false x)]>) v)).
  { intros v x Hv Hb. rewrite (settle_unsettled a r) by done.
    unfold r at 1. simpl. rewrite Hb. by rewrite fire_wired. }
  split.
  - intros v x Hv. split; [by apply Hwired|].
    intros Hb failed. rewrite (settle_unsettled a r) by done.
    unfold r at 1. simpl. by rewrite Hb.
  - intros g os x Hg v v' Hv.
    assert (Hb : bound = true) by (unfold bound; by rewrite Hg).
    assert (Hgv : generator_ (thread v) = VGenerator g).
    { destruct (run_evolves os (snd (request m names mode oc w)))
        as (_ & _ & _ & Hgen & _).
      rewrite request_new in Hgen. simpl in Hgen.
      destruct Hgen as [E _]; [by rewrite Hg|].
      unfold v. rewrite request_new. simpl. by rewrite E. }
    rewrite (Hwired v x Hv Hb). split; intros Hbr.
    + by apply sendNext__sync.
    + by apply sendNext__deferred.
Qed.

Lemma request_returns_pending_witness :
  let v0 := snd (request "get" ["orders"] None None idle_world) in
  let v1 := snd (request "get" ["orders"] None None driven_world) in
  let v2 := run [CallCommit] v1 in
  let got := ObjRequest (mkRequest "get" wired (Some (false, VNumber 5))) in
  settle 1 false (VNumber 5) v1 =
    sendNext_ (VNumber 5) (with_store (<[1%nat := got]>) v1)
  ∧ settle 1 false (VNumber 5) v1 =
      (Returned (),
       with_trace (λ l, l ++ [EvNext 7 (VNumber 5)])
         (with_store (<[1%nat := got]>) v1))
  ∧ settle 1 false (VNumber 5) v2 =
      (Returned (),
       with_timers (λ l, l ++ [(Reopen (VNumber 5), 4)])
         (with_thread (set_break_tx_ false)
            (with_store (<[1%nat := got]>) v2)))
  ∧ settle 1 true (VString "disk full") v0 =
      (Returned (),
       with_store
         (<[1%nat := ObjRequest
                       (mkRequest "get" [] (Some (true, VString "disk full")))]>)
         v0).
Proof.
  intros v0 v1 v2 got.
  pose proof (request_returns_pending "get" ["orders"] None None driven_world)
    as (_ & _ & _ & Hany & Hlife).
  pose proof (request_returns_pending "get" ["orders"] None None idle_world)
    as (_ & _ & _ & Hidle & _).
  split; [|split; [|split]].
  - exact (proj1 (Hany v1 (VNumber 5) eq_refl) eq_refl).
  - exact (proj1 (Hlife 7%nat [] (VNumber 5) eq_refl eq_refl) eq_refl).
  - exact (proj2 (Hlife 7%nat [CallCommit] (VNumber 5) eq_refl eq_refl) eq_refl).
  - exact (proj2 (Hidle v0 (VString "disk full") eq_refl) eq_refl true).
Defined.

(** * Further properties *)

(** ** Every turn is a sequence of moves *)

Section Moves.

Lemma bind_ret_unit_any {A : Type} (m : M A) (w : World) :
  snd ((m;; mret ()) w) = snd (m w).
Proof. unfold mbind, M_bind, mret, M_ret. by destruct (m w) as [[a|e] w']. Qed.

Lemma path_one (a : atom) (w w' : World) : does a w w' → path [a] w w'.
Proof. intros H. eapply path_cons; [exact H|apply path_nil]. Qed.

Lemma path_app (l1 l2 : list atom) (w1 w2 w3 : World) :
  path l1 w1 w2 → path l2 w2 w3 → path (l1 ++ l2) w1 w3.
Proof.
  induction 1 as [|a l u1 u2 u3 Hd _ IH]; intros H2; [done|].
  simpl. eapply path_cons; [exact Hd|by apply IH].
Qed.

Lemma Settling_bind {A B : Type} (m : M A) (f : A → M B) :
  Settling m → (∀ a, Settling (f a)) → Settling (m ≫= f).
Proof.
  intros Hm Hf w. unfold mbind, M_bind. destruct (Hm w) as (l1 & P1 & F1).
  destruct (m w) as [[a|e] w1]; simpl in *; [|by exists l1].
  destruct (Hf a w1) as (l2 & P2 & F2). exists (l1 ++ l2).
  split; [by eapply path_app|by apply Forall_app].
Qed.

Lemma Settling_still {A : Type} (m : M A) :
  (∀ w, snd (m w) = w) → Settling m.
Proof. intros H w. exists []. rewrite H. split; constructor. Qed.

Lemma sendNext__throws (x : value) (w : World) :
  break_tx_ (thread w) = false →
  (∀ g, generator_ (thread w) ≠ VGenerator g) →
  sendNext_ x w = (Thrown TypeError, w).
Proof.
  intros Hb Hg. unfold sendNext_. eval_M. rewrite Hb.
  destruct (generator_ (thread w)) eqn:E; try done. by destruct (Hg g).
Qed.

Lemma Settling_sendNext_ (x : value) : Settling (sendNext_ x).
Proof.
  intros w. destruct (break_tx_ (thread w)) eqn:Hb.
  - rewrite sendNext__deferred by done. exists [ADefer x].
    split; [by apply path_one, does_defer|by repeat constructor].
  - destruct (generator_ (thread w)) as [| | | | | | |g] eqn:Hg;
      try (rewrite sendNext__throws by (done || by rewrite Hg);
           exists []; split; constructor).
    rewrite (sendNext__sync x w g) by done. exists [AResume g x].
    split; [by apply path_one, does_resume|by repeat constructor].
Qed.

Lemma Settling_run_listener (l : listener) (x : value) :
  Settling (run_listener l x).
Proof.
  destruct l; [apply Settling_sendNext_|]. intros w.
  destruct (instanceof_Error (store w) x) eqn:He.
  - rewrite errback_passes by done. apply Settling_sendNext_.
  - rewrite errback_wraps by done.
    destruct (Settling_sendNext_ (VObject (length (store w)))
                (with_store (λ h, h ++ [ObjError {["error" := x]}]) w))
      as (l & P & F).
    exists (AWrap x :: l). split; [|by constructor].
    eapply path_cons; [by apply does_wrap|exact P].
Qed.

Lemma Settling_fire (failed : bool) (v : value)
    (ls : list (listener * listener)) :
  Settling (fire failed v ls).
Proof.
  induction ls as [|[cb eb] ls IH]; simpl.
  - by apply Settling_still.
  - apply Settling_bind; [apply Settling_run_listener|]. intros _. exact IH.
Qed.

Lemma Settling_settle (a : nat) (failed : bool) (v : value) :
  Settling (settle a failed v).
Proof.
  intros w. destruct (store w !! a) as [[| |r]|] eqn:Ha;
    try (exists []; unfold settle; eval_M; rewrite Ha; split; constructor).
  destruct (settlement r) as [s|] eqn:Hs.
  { exists []. unfold settle. eval_M. rewrite Ha, Hs. split; constructor. }
  rewrite (settle_unsettled a r) by done.
  destruct (Settling_fire failed v (listeners r)
              (with_store (<[a := ObjRequest (settled r failed v)]>) w))
    as (l & P & F).
  exists (ASettle a r failed v :: l). split; [|by constructor].
  eapply path_cons; [by apply does_settle|exact P].
Qed.

(** The moves of one turn. *)
Lemma step_path (o : op) (w : World) :
  ∃ l, path l w (step o w) ∧ Forall (λ a, caused_by o a = true) l.
Proof.
  destruct o as [gen req| |m names mode oc|tx|f names mode oc|h type e
                 |a failed v| |tx].
  - rewrite step_setGenerator.
    destruct (truthy (generator_ (thread w))) eqn:Hg.
    + exists []. split; constructor.
    + exists [ABind gen req].
      split; [by apply path_one, does_bind|by repeat constructor].
  - unfold step, exec_op.
    destruct (truthy (generator_ (thread w))) eqn:Hg.
    + rewrite commit_running by done. exists [ACommit].
      split; [by apply path_one, does_commit|by repeat constructor].
    + exists []. split; [|constructor].
      destruct (isDef (generator_ (thread w))) eqn:Hd.
      * rewrite commit_ended by done. constructor.
      * rewrite commit_undefined by done. constructor.
  - unfold step, exec_op. rewrite bind_ret_unit_any, request_new. simpl.
    eexists [ANewRequest _].
    split; [apply path_one, does_new_request|by repeat constructor].
  - unfold step, exec_op, Thread_abort. eval_M.
    destruct (truthy tx); [|exists []; split; constructor].
    destruct (isFunction (get_prop (store w) tx "abort")).
    { eexists [ANative _].
      split; [by apply path_one, does_native|by repeat constructor]. }
    destruct (isFunction (get_prop (store w) tx "executeSql")).
    { eexists [ANative _].
      split; [by apply path_one, does_native|by repeat constructor]. }
    exists []. split; constructor.
  - unfold step, exec_op. eexists [AOpen _ _ _ _].
    split; [apply path_one, does_open|by repeat constructor].
  - unfold step, exec_op. destruct h as [[|]]; simpl.
    + unfold onGenTxCommitted_. eval_M.
      destruct (_ && _) eqn:Hc; [|exists []; split; constructor].
      apply andb_true_iff in Hc as [_ Hb]. apply negb_true_iff in Hb.
      destruct (gen_req_ (thread w)) as [| | | | |a| |] eqn:Hr;
        try (exists []; split; constructor).
      destruct (store w !! a) as [[| |r]|] eqn:Ha;
        try (exists []; unfold setDbValue; eval_M; rewrite Ha;
             split; constructor).
      rewrite (setDbValue_request w a r) by done.
      destruct (settlement r) eqn:Hs; [exists []; split; constructor|].
      destruct (Settling_fire (negb (bool_decide (type = COMPLETE)))
                  (VNumber (getTxNo (thread w))) (listeners r)
                  (resolved a r (getTxNo (thread w))
                     (negb (bool_decide (type = COMPLETE))) w))
        as (l & P & F).
      eexists (AResolve a _ _ :: ASettle a r _ _ :: l). split.
      * eapply path_cons.
        { apply does_resolve; try done. unfold is_request. by rewrite Ha. }
        eapply path_cons; [|exact P]. by apply does_settle.
      * repeat (constructor; [done|]).
        eapply Forall_impl; [exact F|]. by intros [].
    + exists []. unfold onGenTxCommitted_unbound.
      destruct (_ || _); split; constructor.
  - unfold step, exec_op. destruct (Settling_settle a failed v w) as (l & P & F).
    by exists l.
  - rewrite step_Timer. destruct (timers w) as [|[[x] d] rest] eqn:Ht.
    + exists []. split; constructor.
    + eexists [ATimerPop; AOpen _ _ _ _]. split; [|by repeat constructor].
      eapply path_cons; [by eapply does_timer_pop|].
      apply path_one. unfold run_task. eval_M. apply does_open.
  - unfold step, exec_op. destruct (opening w) as [|f rest] eqn:Ho.
    + exists []. split; constructor.
    + destruct f as [x|f]; simpl.
      * unfold mbind, M_bind, this. simpl.
        destruct (generator_ (thread w)) as [| | | | | | |g] eqn:Hg;
          try (exists [AOpeningPop]; split; [|by repeat constructor];
               by eapply path_one, does_opening_pop).
        exists [AOpeningPop; AResume g x]. split; [|by repeat constructor].
        eapply path_cons; [by eapply does_opening_pop|].
        by apply path_one, does_resume.
      * eexists [AOpeningPop; ANative _]. split; [|by repeat constructor].
        eapply path_cons; [by eapply does_opening_pop|].
        by apply path_one, does_native.
Qed.

(** What every allowed move keeps, every run of allowed operations keeps. *)
Lemma path_invariant (I : World → Prop) (P : atom → bool) :
  (∀ a w w', P a = true → does a w w' → I w → I w') →
  ∀ l w w', path l w w' → Forall (λ a, P a = true) l → I w → I w'.
Proof.
  intros Hkeep l w w' Hp. induction Hp as [|a l w1 w2 w3 Hd _ IH];
    intros HF HI; [done|].
  apply Forall_cons in HF as [Ha HF]. apply IH; [done|]. by eapply Hkeep.
Qed.

Lemma run_invariant (I : World → Prop) (Q : op → bool) :
  (∀ o a w w', Q o = true → caused_by o a = true → does a w w' → I w → I w') →
  ∀ os w, Forall (λ o, Q o = true) os → I w → I (run os w).
Proof.
  intros Hkeep os. induction os as [|o os IH] using rev_ind; intros w HF HI;
    [done|].
  apply Forall_app in HF as [HF Ho]. apply List.Forall_inv in Ho.
  rewrite run_snoc. destruct (step_path o (run os w)) as (l & P & F).
  eapply (path_invariant I (caused_by o)); [|exact P|exact F|by apply IH].
  intros a u u' Ha Hd. by apply (Hkeep o a u u').
Qed.

End Moves.

(** ** What a thread keeps for life *)

Ltac by_move Hd :=
  destruct Hd; simpl in *; rewrite ?processTx_opens; simpl; try done.

(** X1: no operation changes the fields that the constructor marks final
    (storage_, q_no_, scope_store_names, scope_mode, policy, max_tx_no): after
    any sequence of operations they hold what the constructor stored, with
    SINGLE for an absent policy and 0 for an absent transaction limit. *)
Theorem finals_kept (os : list op) (w : World) :
  finals (thread (run os w)) = finals (thread w)
  ∧ ∀ (storage : value) (ptx_no : Z) (pol : option Policy)
      (names : option (list string)) (mode : option TransactionMode)
      (mx : option Z),
      w = new_World (new_Thread storage ptx_no pol names mode mx) →
      finals (thread (run os w))
      = (storage, ptx_no, names, mode, default SINGLE pol, default 0 mx).
Proof.
  assert (H : finals (thread (run os w)) = finals (thread w)).
  { apply (run_invariant (λ w', finals (thread w') = finals (thread w))
             (λ _, true)); [|by apply Forall_forall|done].
    intros o a u u' _ _ Hd HI. rewrite <-HI. by_move Hd. }
  split; [exact H|]. intros storage ptx_no pol names mode mx Hw.
  rewrite H, Hw. done.
Qed.

Lemma finals_kept_witness :
  let os := [CallSetGenerator (VGenerator 7) (VObject 0);
             CallRequest "get" ["orders"] None None; CallCommit;
             Settle 0 false (VNumber 5); Timer; TxActive VNull] in
  let w := new_World (new_Thread (VString "idb") 3 None (Some ["orders"])
                        (Some READ_WRITE) None) in
  finals (thread (run os w))
  = (VString "idb", 3, Some ["orders"], Some READ_WRITE, SINGLE, 0).
Proof.
  intros os w.
  exact (proj2 (finals_kept os w) (VString "idb") 3 None (Some ["orders"])
           (Some READ_WRITE) None eq_refl).
Defined.



(** X10: the thread never writes to an object that is not a pending
    operation: an error object or a transaction handle that is in the store
    is found unchanged at its address after any sequence of operations, and
    the store never shrinks. *)
Theorem objects_never_written (os : list op) (w : World) (b : nat) (o : object) :
  store w !! b = Some o →
  is_plain o = true →
  store (run os w) !! b = Some o
  ∧ (length (store w) ≤ length (store (run os w)))%nat.
Proof.
  intros Hb Ho.
  apply (run_invariant
           (λ w', store w' !! b = Some o
                  ∧ (length (store w) ≤ length (store w'))%nat) (λ _, true));
    [|by apply Forall_forall|done].
  intros op' a u u' _ _ Hd [Hl Hn].
  destruct Hd; simpl in *; rewrite ?processTx_opens; simpl; try done.
  - rewrite length_app. split; [by apply lookup_app_l_Some|lia].
  - rewrite length_app. split; [by apply lookup_app_l_Some|lia].
  - rewrite length_insert. split; [|done].
    rewrite list_lookup_insert_ne; [done|].
    intros ->. rewrite Hl in H. injection H as ->. done.
Qed.

Lemma objects_never_written_witness :
  let quota := ObjError {["name" := VString "QuotaExceededError"]} in
  let w := with_store (λ h, h ++ [quota]) driven_world in
  let os := [CallRequest "put" ["orders"] None None;
             Settle 2 true (VObject 1); Settle 2 true (VString "disk full")] in
  store (run os w) !! 1%nat = Some quota.
Proof.
  intros quota w os.
  exact (proj1 (objects_never_written os w 1 quota eq_refl eq_refl)).
Defined.

(** X11: nothing but the continuation that setGenerator returned resolves
    the initiating request: a sequence of operations without a call of that
    continuation adds no setDbValue to the trace, and the bare
    onGenTxCommitted_ that sendNext_ hands to processTx leaves the whole
    world as it is. *)
Theorem only_continuation_resolves (os : list op) (w : World) :
  Forall (λ o, is_continuation o = false) os →
  resolutions (trace (run os w)) = resolutions (trace w)
  ∧ ∀ (type : TxEventTypes) (e : value),
      step (TxEnded (OnGenTxCommitted false) type e) (run os w) = run os w.
Proof.
  intros Hos. split.
  - apply (run_invariant
             (λ w', resolutions (trace w') = resolutions (trace w))
             (λ o, negb (is_continuation o))); [| |done].
    + intros o a u u' Ho Hc Hd HI. rewrite <-HI. unfold resolutions.
      destruct Hd; simpl in *; rewrite ?processTx_opens; simpl; try done;
        rewrite ?List.filter_app, ?length_app; simpl; try lia.
      * destruct o as [| | | | |[[|]] ? ?| | |]; done.
      * destruct e; try done; simpl; lia.
    + eapply Forall_impl; [exact Hos|]. by intros o ->.
  - intros type e. unfold step. simpl. unfold onGenTxCommitted_unbound.
    by destruct (_ || _).
Qed.

Lemma only_continuation_resolves_witness :
  let os := [TxEnded (OnGenTxCommitted false) COMPLETE VNull;
             CallRequest "get" ["orders"] None None; CallCommit;
             Settle 1 false (VNumber 5); Timer; TxActive VNull;
             TxEnded (OnGenTxCommitted false) ABORT VNull] in
  resolutions (trace (run os driven_world)) = resolutions (trace driven_world).
Proof.
  intros os.
  assert (H : Forall (λ o, is_continuation o = false) os)
    by (repeat constructor).
  exact (proj1 (only_continuation_resolves os driven_world H)).
Defined.

(** X13: no method of thread.js changes the label: after any sequence of
    operations none of which enters processTx, getLabel, getQueueNo and
    getTxNo answer as before. *)
Theorem label_stable (os : list op) (w : World) :
  Forall (λ o, opens_tx o = false) os →
  getLabel (thread (run os w)) = getLabel (thread w)
  ∧ getQueueNo (thread (run os w)) = getQueueNo (thread w)
  ∧ getTxNo (thread (run os w)) = getTxNo (thread w).
Proof.
  intros Hos.
  assert (H : q_no_ (thread (run os w)) = q_no_ (thread w)
              ∧ tx_no_ (thread (run os w)) = tx_no_ (thread w)).
  { apply (run_invariant
             (λ w', q_no_ (thread w') = q_no_ (thread w)
                    ∧ tx_no_ (thread w') = tx_no_ (thread w))
             (λ o, negb (opens_tx o))); [| |done].
    - intros o a u u' Ho Hc Hd HI. destruct Hd; simpl in *; try done.
      by destruct o as [| | | | |[[|]] ? ?| | |].
    - eapply Forall_impl; [exact Hos|]. by intros o ->. }
  destruct H as [Hq Ht]. unfold getLabel, getQueueNo, getTxNo.
  by rewrite Hq, Ht.
Qed.

Lemma label_stable_witness :
  let os := [CallRequest "get" ["orders"] None None; CallCommit;
             Settle 1 false (VNumber 5);
             TxEnded (OnGenTxCommitted true) COMPLETE VNull] in
  getLabel (thread (run os driven_world)) = "B3T0".
Proof.
  intros os.
  assert (H : Forall (λ o, opens_tx o = false) os) by (repeat constructor).
  exact (proj1 (label_stable os driven_world H)).
Defined.

(** ** Commit, completion and the resume step *)

(** X3: between commit and the next resume step the guard holds: on a thread
    that drives a coroutine, the continuation called right after commit, with
    any event type, resolves nothing and leaves the world as commit left
    it. *)
Theorem completion_after_commit (w : World) (type : TxEventTypes) (e : value) :
  truthy (generator_ (thread w)) = true →
  run_handler (OnGenTxCommitted true) type e (snd (commit w))
  = (Returned (), snd (commit w)).
Proof.
  intros Hg. rewrite commit_running by done. simpl.
  unfold onGenTxCommitted_. eval_M. by rewrite andb_false_r.
Qed.

Lemma completion_after_commit_witness :
  truthy (generator_ (thread driven_world)) = true
  ∧ run_handler (OnGenTxCommitted true) COMPLETE VNull (snd (commit driven_world))
    = (Returned (), snd (commit driven_world)).
Proof.
  split; [reflexivity|].
  exact (completion_after_commit driven_world COMPLETE VNull eq_refl).
Defined.

(** X4: the resume step that follows a commit clears break_tx_ at once, so
    a COMPLETE of the old transaction that arrives after it and before the
    queued task runs is not held back: the continuation addresses the
    initiating request with tx_no_ as succeeded (a pending request is resolved
    so, a settled one rejects the call), while the task is still in the timer
    queue and no transaction has been opened. *)
Theorem completion_after_resume (w : World) (g a : nat) (x e : value) :
  coroutine_bound w g a →
  let w2 := snd (sendNext_ x (snd (commit w))) in
  timers w2 = timers w ++ [(Reopen x, 4)]
  ∧ opened (trace w2) = opened (trace w)
  ∧ ∃ r : Request,
      store w !! a = Some (ObjRequest r)
      ∧ run_handler (OnGenTxCommitted true) COMPLETE e w2 =
          match settlement r with
          | Some _ => (Thrown AlreadySettled, w2)
          | None =>
              fire false (VNumber (tx_no_ (thread w))) (listeners r)
                (resolved a r (tx_no_ (thread w)) false w2)
          end
      ∧ trace (resolved a r (tx_no_ (thread w)) false w2)
        = trace w ++ [EvSetDbValue a (tx_no_ (thread w)) false].
Proof.
  intros (Hg & Hr & Ha) w2. unfold w2.
  rewrite commit_running by (by rewrite Hg).
  rewrite sendNext__deferred by done. simpl.
  split; [done|]. split; [done|].
  unfold is_request in Ha. destruct (store w !! a) as [[| |r]|] eqn:Hs; try done.
  exists r. split; [done|]. split; [|done].
  change (run_handler (OnGenTxCommitted true) COMPLETE e) with
    (onGenTxCommitted_ COMPLETE e).
  rewrite (onGenTxCommitted__done _ a r); [done|by left|done..].
Qed.

Lemma completion_after_resume_witness :
  let w := run [CallProcessTx 1 (Some ["orders"]) (Some READ_WRITE) None]
             driven_world in
  let w2 := snd (sendNext_ (VNumber 5) (snd (commit w))) in
  let r := mkRequest "run" [] None in
  coroutine_bound w 7 0
  ∧ timers w2 = [(Reopen (VNumber 5), 4)]
  ∧ ∃ r' : Request,
      store w !! 0%nat = Some (ObjRequest r')
      ∧ run_handler (OnGenTxCommitted true) COMPLETE VNull w2 =
          match settlement r' with
          | Some _ => (Thrown AlreadySettled, w2)
          | None =>
              fire false (VNumber 1) (listeners r') (resolved 0 r' 1 false w2)
          end
      ∧ trace (resolved 0 r' 1 false w2)
        = trace w ++ [EvSetDbValue 0 1 false].
Proof.
  intros w w2 r.
  assert (Hb : coroutine_bound w 7 0) by (repeat split; reflexivity).
  pose proof (completion_after_resume w 7 0 (VNumber 5) VNull Hb) as H.
  split; [exact Hb|]. split; [exact (proj1 H)|exact (proj2 (proj2 H))].
Defined.

(** X5: commit is idempotent: on a thread that drives a coroutine a second
    commit before the next resume step returns and leaves the world as the
    first one left it, so the two ask for one transaction boundary. *)
Theorem commit_idempotent (w : World) :
  truthy (generator_ (thread w)) = true →
  (commit;; commit) w = commit w.
Proof.
  intros Hg. unfold mbind, M_bind. rewrite commit_running by done.
  rewrite commit_running by done. done.
Qed.

Lemma commit_idempotent_witness :
  truthy (generator_ (thread driven_world)) = true
  ∧ (commit;; commit) driven_world = commit driven_world.
Proof.
  split; [reflexivity|exact (commit_idempotent driven_world eq_refl)].
Defined.

(** X6: every resume step leaves break_tx_ false, whether it resumes, defers
    or throws; so after one commit only the first resume step is deferred: a
    second value sent before the task has run resumes the coroutine at once,
    ahead of the deferred one. *)
Theorem one_deferral_per_commit :
  (∀ (x : value) (w : World), break_tx_ (thread (snd (sendNext_ x w))) = false)
  ∧ ∀ (x y : value) (w : World) (g : nat),
      generator_ (thread w) = VGenerator g →
      break_tx_ (thread w) = true →
      (sendNext_ x;; sendNext_ y) w =
        (Returned (),
         with_trace (λ l, l ++ [EvNext g y])
           (with_timers (λ l, l ++ [(Reopen x, 4)])
              (with_thread (set_break_tx_ false) w))).
Proof.
  split.
  - intros x w. destruct (break_tx_ (thread w)) eqn:Hb.
    + by rewrite sendNext__deferred.
    + unfold sendNext_. eval_M. rewrite Hb.
      by destruct (generator_ (thread w)).
  - intros x y w g Hg Hb. unfold mbind, M_bind.
    rewrite sendNext__deferred by done.
    by rewrite (sendNext__sync y _ g).
Qed.

Lemma one_deferral_per_commit_witness :
  let w := snd (commit driven_world) in
  (generator_ (thread w) = VGenerator 7 ∧ break_tx_ (thread w) = true)
  ∧ (sendNext_ (VNumber 1);; sendNext_ (VNumber 2)) w =
      (Returned (),
       with_trace (λ l, l ++ [EvNext 7 (VNumber 2)])
         (with_timers (λ l, l ++ [(Reopen (VNumber 1), 4)])
            (with_thread (set_break_tx_ false) w))).
Proof.
  intros w. split; [split; reflexivity|].
  exact (proj2 one_deferral_per_commit (VNumber 1) (VNumber 2) w 7%nat
           eq_refl eq_refl).
Defined.

(** X7: without commit the thread defers nothing and opens no transaction of
    its own: from a world with break_tx_ false and no queued task, after any
    sequence of operations that has no commit, break_tx_ is false, the timer
    queue is empty, and processTx was entered exactly once for each call of
    it by a caller. *)
Theorem without_commit (os : list op) (w : World) :
  Forall (λ o, is_commit o = false) os →
  break_tx_ (thread w) = false →
  timers w = [] →
  break_tx_ (thread (run os w)) = false
  ∧ timers (run os w) = []
  ∧ opened (trace (run os w)) = opened (trace w) + asked os.
Proof.
  intros Hos Hb Ht.
  induction os as [|o os IH] using rev_ind.
  { unfold asked. simpl. repeat split; try done. lia. }
  apply Forall_app in Hos as [Hos Ho]. apply List.Forall_inv in Ho.
  destruct (IH Hos) as (IHb & IHt & IHo). rewrite run_snoc.
  set (u := run os w) in *.
  destruct (step_path o u) as (l & P & F).
  assert (Hcalm : break_tx_ (thread (step o u)) = false ∧ timers (step o u) = []).
  { apply (path_invariant
             (λ w', break_tx_ (thread w') = false ∧ timers w' = [])
             (caused_by o) ) with (l := l) (w := u); [|done..].
    intros a v v' Hc Hd [Hvb Hvt]. destruct Hd; simpl in *; try done.
    - by destruct o as [| | | | |[[|]] ? ?| | |].
    - congruence.
    - congruence. }
  destruct Hcalm as [Hb' Ht']. split; [done|]. split; [done|].
  assert (Hasked : asked (os ++ [o])
                   = asked os + match o with
                                | CallProcessTx _ _ _ _ => 1
                                | _ => 0
                                end).
  { unfold asked. rewrite List.filter_app, length_app. simpl.
    destruct o; simpl; lia. }
  rewrite Hasked.
  assert (Hk : opened (trace (step o u))
               = opened (trace u) + match o with
                                    | CallProcessTx _ _ _ _ => 1
                                    | _ => 0
                                    end); [|lia].
  pose proof (step_quiet o u) as Hq.
  destruct o; try (rewrite (proj2 Hq); lia).
  - rewrite step_setGenerator. destruct (truthy _); simpl; lia.
  - unfold step, exec_op. rewrite processTx_opens. simpl.
    rewrite opened_snoc. simpl. lia.
  - rewrite step_Timer, IHt. lia.
Qed.

Lemma without_commit_witness :
  let os := [CallRequest "get" ["orders"] None None;
             CallProcessTx 1 (Some ["orders"]) (Some READ_WRITE) None;
             Settle 1 false (VNumber 5); Timer; TxActive VNull;
             TxEnded (OnGenTxCommitted true) COMPLETE VNull] in
  timers (run os driven_world) = []
  ∧ opened (trace (run os driven_world)) = 1.
Proof.
  intros os.
  assert (H : Forall (λ o, is_commit o = false) os) by (repeat constructor).
  pose proof (without_commit os driven_world H eq_refl eq_refl) as R.
  split; [exact (proj1 (proj2 R))|exact (proj2 (proj2 R))].
Defined.

(** ** Values, bindings and their edges *)

Lemma sendNext__frame_store (x : value) (f : list object → list object)
    (w : World) :
  sendNext_ x (with_store f w)
  = (fst (sendNext_ x w), with_store f (snd (sendNext_ x w))).
Proof.
  unfold sendNext_. eval_M. destruct (break_tx_ (thread w)); [done|].
  by destruct (generator_ (thread w)).
Qed.

(** X8: the errback passes an instance of Error on as it is, and the
    callback passes every value on as it is, so for such a value the two
    channels do the same: settling a request of a coroutine-driven thread
    with it as a failure or as a success is the same resume step, and the
    two worlds differ in the recorded settlement of the request only. *)
Theorem error_on_either_channel (w : World) (a b : nat) (r : Request)
    (p : gmap string value) :
  store w !! a = Some (ObjRequest r) →
  settlement r = None →
  listeners r = wired →
  store w !! b = Some (ObjError p) →
  let e := VObject b in
  ∀ failed : bool,
    settle a failed e w
    = (fst (sendNext_ e w),
       with_store (<[a := ObjRequest (settled r failed e)]>)
         (snd (sendNext_ e w))).
Proof.
  intros Ha Hs Hl Hb e failed.
  rewrite (settle_unsettled a r) by done. rewrite Hl, fire_wired.
  destruct failed.
  - rewrite errback_passes; [apply sendNext__frame_store|].
    cbn [store with_store].
    rewrite (instanceof_Error_settled _ _ r) by done. simpl. by rewrite Hb.
  - simpl. apply sendNext__frame_store.
Qed.

Lemma error_on_either_channel_witness :
  let quota := ObjError {["name" := VString "QuotaExceededError"]} in
  let w := run [CallRequest "put" ["orders"] (Some READ_WRITE) None]
             (with_store (λ h, h ++ [quota]) driven_world) in
  let r := mkRequest "put" wired None in
  trace (snd (settle 2 false (VObject 1) w)) = [EvNext 7 (VObject 1)]
  ∧ trace (snd (settle 2 true (VObject 1) w)) = [EvNext 7 (VObject 1)].
Proof.
  intros quota w r.
  pose proof (error_on_either_channel w 2 1 r
                {["name" := VString "QuotaExceededError"]}
                eq_refl eq_refl eq_refl eq_refl) as H.
  split.
  - exact (f_equal (λ p, trace (snd p)) (H false)).
  - exact (f_equal (λ p, trace (snd p)) (H true)).
Defined.

(** X9: setGenerator given a falsy generator (null, undefined) passes the
    assertion and stores it with the request, but binds no coroutine: commit
    still throws (the ended-coroutine error for a defined value, the
    not-running error for undefined), requests get no listener, and a later
    setGenerator is accepted and replaces both fields. *)
Theorem falsy_binding (w : World) (gen req gen' req' : value) :
  truthy (generator_ (thread w)) = false →
  truthy gen = false →
  let w1 := with_thread (set_gen_req_ req) (with_thread (set_generator_ gen) w) in
  setGenerator gen req w = (Returned (OnGenTxCommitted true), w1)
  ∧ commit w1 = (Thrown (if isDef gen then already_ended else not_running), w1)
  ∧ setGenerator gen' req' w1 =
      (Returned (OnGenTxCommitted true),
       with_thread (set_gen_req_ req') (with_thread (set_generator_ gen') w1))
  ∧ ∀ (m : Method) (names : list string) (mode : option TransactionMode)
      (oc : option handler),
      snd (request m names mode oc w1)
      = with_store (λ h, h ++ [ObjRequest (mkRequest m [] None)]) w1.
Proof.
  intros Hw Hgen w1. split; [by apply setGenerator_unbound|].
  split; [|split].
  - destruct (isDef gen) eqn:Hd.
    + by apply commit_ended.
    + by apply commit_undefined.
  - by apply setGenerator_unbound.
  - intros m names mode oc. rewrite request_new. simpl. by rewrite Hgen.
Qed.

Lemma falsy_binding_witness :
  let w1 := with_thread (set_gen_req_ (VObject 0))
              (with_thread (set_generator_ VNull) idle_world) in
  commit w1 = (Thrown already_ended, w1)
  ∧ fst (setGenerator (VGenerator 7) (VObject 0) w1)
    = Returned (OnGenTxCommitted true).
Proof.
  intros w1.
  pose proof (falsy_binding idle_world VNull (VObject 0) (VGenerator 7)
                (VObject 0) eq_refl eq_refl) as H.
  split.
  - exact (proj1 (proj2 H)).
  - exact (f_equal fst (proj1 (proj2 (proj2 H)))).
Defined.

(** X12: the continuation does not check its request: when gen_req_ is null
    (as the constructor leaves it) or undefined (setGenerator called without a
    request), a COMPLETE or ABORT while break_tx_ is false throws a TypeError,
    and the world is left as it was. *)
Theorem continuation_without_request (w : World) (type : TxEventTypes)
    (e : value) :
  gen_req_ (thread w) = VNull ∨ gen_req_ (thread w) = VUndefined →
  break_tx_ (thread w) = false →
  type = COMPLETE ∨ type = ABORT →
  run_handler (OnGenTxCommitted true) type e w = (Thrown TypeError, w).
Proof.
  intros Hr Hb Hdone. simpl. unfold onGenTxCommitted_, setDbValue. eval_M.
  rewrite Hb. destruct Hdone as [-> | ->], Hr as [-> | ->]; done.
Qed.

Lemma continuation_without_request_witness :
  let w := run [CallSetGenerator (VGenerator 7) VUndefined] idle_world in
  gen_req_ (thread w) = VUndefined
  ∧ run_handler (OnGenTxCommitted true) COMPLETE VNull w = (Thrown TypeError, w).
Proof.
  intros w. split; [reflexivity|].
  exact (continuation_without_request w COMPLETE VNull (or_intror eq_refl)
           eq_refl (or_introl eq_refl)).
Defined.

(** X14: the base thread never ends a coroutine: once generator_ is truthy,
    after any sequence of operations commit is accepted and sets break_tx_,
    and every request made is given the two listeners of the resume step. *)
Theorem bound_for_life (os : list op) (w : World) :
  truthy (generator_ (thread w)) = true →
  commit (run os w) = (Returned (), with_thread (set_break_tx_ true) (run os w))
  ∧ ∀ (m : Method) (names : list string) (mode : option TransactionMode)
      (oc : option handler),
      snd (request m names mode oc (run os w))
      = with_store (λ h, h ++ [ObjRequest (mkRequest m wired None)]) (run os w).
Proof.
  intros Hg. destruct (run_evolves os w) as (_ & _ & _ & Hgen & _).
  destruct (Hgen Hg) as [E _].
  assert (Hg' : truthy (generator_ (thread (run os w))) = true) by by rewrite E.
  split; [by apply commit_running|].
  intros m names mode oc. rewrite request_new. simpl. by rewrite Hg'.
Qed.

Lemma bound_for_life_witness :
  let os := [CallRequest "get" ["orders"] None None; CallCommit;
             Settle 1 false (VNumber 5); Timer; TxActive VNull;
             TxEnded (OnGenTxCommitted true) COMPLETE VNull] in
  truthy (generator_ (thread driven_world)) = true
  ∧ fst (commit (run os driven_world)) = Returned ().
Proof.
  intros os. split; [reflexivity|].
  exact (f_equal fst (proj1 (bound_for_life os driven_world eq_refl))).
Defined.

(** X15: the defaults of the constructor never override an argument that
    was given: the five policy names are distinct non-empty strings, so
    [opt_policy || SINGLE] is the given policy and SINGLE only when none is
    given, and [opt_max_tx_no || 0] is the given limit and 0 when none is
    given. *)
Theorem constructor_defaults (storage : value) (ptx_no : Z)
    (pol : option Policy) (names : option (list string))
    (mode : option TransactionMode) (mx : option Z) :
  let t := new_Thread storage ptx_no pol names mode mx in
  (∀ p q : Policy, Policy_name p = Policy_name q → p = q)
  ∧ VString (Policy_name (policy t))
    = js_or (opt_arg (λ p, VString (Policy_name p)) pol)
        (VString (Policy_name SINGLE))
  ∧ VNumber (max_tx_no t) = js_or (opt_arg VNumber mx) (VNumber 0)
  ∧ (∀ p : Policy, pol = Some p → policy t = p)
  ∧ (∀ n : Z, mx = Some n → max_tx_no t = n).
Proof.
  intros t. split; [by intros [] [] H|]. split; [by destruct pol as [[]|]|].
  split; [|split].
  - destruct mx as [n|]; [|done]. unfold js_or. simpl.
    destruct (n =? 0) eqn:E; [|done]. apply Z.eqb_eq in E. by subst.
  - by intros p ->.
  - by intros n ->.
Qed.

Lemma constructor_defaults_witness :
  let t := new_Thread VNull 3 (Some ATOMIC) None None (Some 0) in
  policy t = ATOMIC ∧ max_tx_no t = 0.
Proof.
  intros t.
  pose proof (constructor_defaults VNull 3 (Some ATOMIC) None None (Some 0))
    as H.
  split.
  - exact (proj1 (proj2 (proj2 (proj2 H))) ATOMIC eq_refl).
  - exact (proj2 (proj2 (proj2 (proj2 H))) 0 eq_refl).
Defined.

(** ** Counting boundaries and coroutines *)

Lemma step_boundaries (o : op) (w : World) :
  boundaries (step o w)
  ≤ boundaries w + (if is_commit o then 1 else 0)
    + match o with CallProcessTx _ _ _ _ => 1 | _ => 0 end.
Proof.
  assert (Hsame : (∀ a, caused_by o a = true →
                        match a with
                        | ACommit | AOpen _ _ _ _ | ATimerPop => False
                        | _ => True
                        end) →
                  boundaries (step o w) = boundaries w).
  { intros Hno. destruct (step_path o w) as (l & P & F).
    apply (path_invariant (λ w', boundaries w' = boundaries w) (caused_by o))
      with (l := l) (w := w); [|done..].
    intros a v v' Hc Hd HI. rewrite <-HI. specialize (Hno a Hc).
    unfold boundaries. destruct Hd; simpl in *; try done;
      rewrite ?opened_snoc, ?length_app; simpl; try lia.
    - rewrite H. lia.
    - destruct e; try done; simpl; lia. }
  destruct o as [gen req| |m names mode oc|tx|f names mode oc|h type e
                 |a failed v| |tx]; simpl;
    try (rewrite Hsame; [lia|by intros []]).
  - unfold step, exec_op, boundaries.
    destruct (truthy (generator_ (thread w))) eqn:Hg.
    + rewrite commit_running by done. simpl. destruct (break_tx_ _); lia.
    + destruct (isDef (generator_ (thread w))) eqn:Hd.
      * rewrite commit_ended by done. simpl. lia.
      * rewrite commit_undefined by done. simpl. lia.
  - unfold step, exec_op, boundaries. rewrite processTx_opens. simpl.
    rewrite opened_snoc. simpl. lia.
  - rewrite Hsame; [lia|]. by destruct h as [[|]]; intros [].
  - rewrite step_Timer. unfold boundaries.
    destruct (timers w) as [|[[x] d] rest] eqn:Ht; simpl;
      rewrite ?Ht, ?opened_snoc; simpl; lia.
Qed.

(** X16: the thread takes at most one transaction boundary for each commit:
    over any sequence of operations the transactions opened, the tasks queued
    and a pending break_tx_ together grow by no more than the calls of commit
    and the calls of processTx by a caller; on a new thread the transactions
    that processTx opened beyond those a caller asked for are at most as many
    as the commits. *)
Theorem boundaries_bounded (os : list op) (w : World) :
  boundaries (run os w) ≤ boundaries w + commits os + asked os
  ∧ ∀ (storage : value) (ptx_no : Z) (pol : option Policy)
      (names : option (list string)) (mode : option TransactionMode)
      (mx : option Z),
      w = new_World (new_Thread storage ptx_no pol names mode mx) →
      opened (trace (run os w)) - asked os ≤ commits os.
Proof.
  assert (H : boundaries (run os w) ≤ boundaries w + commits os + asked os).
  { induction os as [|o os IH] using rev_ind.
    - unfold commits, asked. simpl. lia.
    - rewrite run_snoc. pose proof (step_boundaries o (run os w)) as Hs.
      unfold commits, asked in *. rewrite !List.filter_app, !length_app. simpl.
      destruct o; simpl in *; lia. }
  split; [exact H|]. intros storage ptx_no pol names mode mx Hw.
  rewrite Hw in H at 2. unfold boundaries in H. simpl in H.
  unfold opened in H at 2. simpl in H.
  destruct (break_tx_ (thread (run os w))); lia.
Qed.

Lemma boundaries_bounded_witness :
  let os := [CallSetGenerator (VGenerator 7) (VObject 0);
             CallProcessTx 1 (Some ["orders"]) (Some READ_WRITE) None;
             CallRequest "get" ["orders"] None None; CallCommit; CallCommit;
             Settle 0 false (VNumber 5); Timer; Timer; TxActive VNull] in
  let w := new_World orders_thread in
  opened (trace (run os w)) - asked os ≤ commits os.
Proof.
  intros os w.
  exact (proj2 (boundaries_bounded os w) VNull 3 None (Some ["orders"])
           (Some READ_WRITE) None eq_refl).
Defined.

(** X17: a thread resumes one coroutine only: after any sequence of
    operations on a new thread every resumption in the trace is of the
    generator that generator_ holds, so any two resumptions are of the same
    generator. *)
Theorem one_generator_resumed (os : list op) (t : Thread) :
  let w := run os (new_World t) in
  (∀ (g : nat) (x : value),
     EvNext g x ∈ trace w → generator_ (thread w) = VGenerator g)
  ∧ ∀ (g1 g2 : nat) (x1 x2 : value),
      EvNext g1 x1 ∈ trace w → EvNext g2 x2 ∈ trace w → g1 = g2.
Proof.
  intros w.
  assert (H : ∀ g x, EvNext g x ∈ trace w → generator_ (thread w) = VGenerator g).
  { unfold w.
    apply (run_invariant
             (λ w', ∀ g x, EvNext g x ∈ trace w'
                           → generator_ (thread w') = VGenerator g)
             (λ _, true)); [|by apply Forall_forall|].
    - intros o a u u' _ _ Hd HI g x.
      destruct Hd; simpl in *; rewrite ?processTx_opens; simpl;
        try (by apply HI);
        try (rewrite elem_of_app, list_elem_of_singleton;
             intros [Hin|Heq]; [by apply (HI g x)|]).
      + by injection Heq as -> _.
      + done.
      + by destruct e.
      + intros Hin. apply HI in Hin. by rewrite Hin in H.
      + done.
    - intros g x Hin. simpl in Hin. by apply elem_of_nil in Hin. }
  split; [exact H|]. intros g1 g2 x1 x2 H1 H2.
  apply H in H1. apply H in H2. congruence.
Qed.

Lemma one_generator_resumed_witness :
  let os := [CallSetGenerator (VGenerator 7) VNull;
             CallRequest "get" ["orders"] None None;
             Settle 0 false (VNumber 5)] in
  let w := run os (new_World orders_thread) in
  EvNext 7 (VNumber 5) ∈ trace w ∧ generator_ (thread w) = VGenerator 7.
Proof.
  intros os w.
  assert (Hin : EvNext 7 (VNumber 5) ∈ trace w) by apply list_elem_of_here.
  split; [exact Hin|].
  exact (proj1 (one_generator_resumed os orders_thread) 7%nat (VNumber 5) Hin).
Defined.
